(** * Tiled matrix-multiplication step simulator

    A shallow embedding of the tiled GEMM visualizer of
    [src/components/post/Im2ColGeminiDemo.tsx] (component
    [TiledMatmulGeminiDemo] and the module-level helpers it uses), together
    with the slider handler of the neighbouring [Im2ColGeminiDemo] component.
    The same file holds the grids that the tiled visualizer renders, the
    im2col visualizer and the photo grid [FlickrRecent]; they are embedded
    in the modules [TiledView], [Im2ColViz] and [FlickrRecent].

    Conventions of the embedding.
    - Indices, step numbers and matrix entries are JavaScript numbers that
      hold integers; they are modelled as [Z].  Every quantity of the
      simulator stays far below 2^53, where double arithmetic on integers
      is exact.
    - [a % b] is JavaScript's truncating remainder: [Z.rem].
    - [Math.floor (a / b)] is [a / b] on [Z] (floor division) and
      [Math.ceil (a / b)] is [ceil_div]; both for a positive divisor [b].
    - Reading past the end of an array yields [undefined]; reading a
      property of [undefined] throws a [TypeError].  A computation that may
      throw lives in the [option] monad, [None] being the thrown error.
    - Arithmetic on [undefined] produces [NaN], so the accumulator of the
      materializer ranges over [number]. *)

From Stdlib Require Import ZArith Lia.
From stdpp Require Import base option list numbers strings.

Local Open Scope Z_scope.

(** ** JavaScript values *)

Inductive number : Type :=
  | Int (z : Z)
  | NaN.

Definition js_add (a b : number) : number :=
  match a, b with
  | Int x, Int y => Int (x + y)
  | _, _ => NaN
  end.

Definition js_mul (a b : number) : number :=
  match a, b with
  | Int x, Int y => Int (x * y)
  | _, _ => NaN
  end.

(** [Math.ceil (a / b)] for integers [a] and a positive integer [b]. *)
Definition ceil_div (a b : Z) : Z := - ((- a) / b).

(** [arr[i]]: [None] is [undefined]. *)
Definition array_get {A : Type} (arr : list A) (i : Z) : option A :=
  if i <? 0 then None else arr !! Z.to_nat i.

(** [arr[i] = x].  Inside the array the slot is replaced; past the end the
    array grows, the skipped slots being holes (written [hole]); a negative
    index names an ordinary property and leaves the elements alone. *)
Definition array_set {A : Type} (hole : A) (arr : list A) (i : Z) (x : A) : list A :=
  if i <? 0 then arr
  else if i <? Z.of_nat (length arr) then <[Z.to_nat i := x]> arr
  else arr ++ replicate (Z.to_nat i - length arr)%nat hole ++ [x].

(** [m[r][n]] used as an operand of [*]: a missing row throws, a missing
    entry is [undefined] and multiplies as [NaN]. *)
Definition read2 (m : list (list Z)) (r n : Z) : option number :=
  row ← array_get m r;
  Some (match array_get row n with
        | Some z => Int z
        | None => NaN
        end).

(** A cell of the output matrix has type [number | null]; [None] is a cell
    that shows no number ([null], or a hole). *)
Abbreviation cell_value := (option number).

(** [out[r][c] = v]: a missing row throws. *)
Definition write2 (out : list (list cell_value)) (r c : Z) (v : number)
  : option (list (list cell_value)) :=
  row ← array_get out r;
  Some (array_set [] out r (array_set None row c (Some v))).

(** ** Counting loops *)

(** [n] iterations of [body], the loop variable starting at [i] and growing
    by one; the loop stops at the first iteration that throws. *)
Fixpoint for_loop {St : Type} (n : nat) (i : Z) (body : Z -> St -> option St) (s : St)
  : option St :=
  match n with
  | O => Some s
  | S n' => s' ← body i s; for_loop n' (i + 1) body s'
  end.

(** [for (let i = lo; i < hi; i += 1) body] *)
Definition for_lt {St : Type} (lo hi : Z) (body : Z -> St -> option St) (s : St)
  : option St :=
  for_loop (Z.to_nat (hi - lo)) lo body s.

(** [for (let i = lo; i <= hi; i += 1) body] *)
Definition for_le {St : Type} (lo hi : Z) (body : Z -> St -> option St) (s : St)
  : option St :=
  for_loop (Z.to_nat (hi - lo + 1)) lo body s.

(** ** The simulator *)

(** [buildMatrix]: the demonstration matrices. *)
Definition buildMatrix (rows cols seed : Z) : list (list Z) :=
  (fun r => (fun c => Z.rem (r * (seed + 2) + c * (seed + 3) + seed) 9 + 1)
              <$> seqZ 0 cols)
    <$> seqZ 0 rows.

Module TiledMatmul.
Section Config.

(** The module-level constants of the source; the source fixes them to
    4, 7, 6 and 9 (see [Demo] below). *)
Variables TILE_SIZE M N K : Z.

Definition ROW_TILES : Z := ceil_div M TILE_SIZE.
Definition INNER_TILES : Z := ceil_div N TILE_SIZE.
Definition COL_TILES : Z := ceil_div K TILE_SIZE.
Definition TOTAL_STEPS : Z := ROW_TILES * COL_TILES * INNER_TILES.

Definition getTileRange (tileIndex maxSize : Z) : Z * Z :=
  let start := tileIndex * TILE_SIZE in
  let end_ := Z.min (start + TILE_SIZE - 1) (maxSize - 1) in
  (start, end_).

Definition tileContributionCount (step rowTile colTile : Z) : Z :=
  let tileIndex := rowTile * COL_TILES + colTile in
  let baseStep := tileIndex * INNER_TILES in
  let delta := step - baseStep + 1 in
  if delta <=? 0 then 0 else Z.min INNER_TILES delta.

Definition buildPartialC (matrixA matrixB : list (list Z)) (step : Z)
  : option (list (list cell_value)) :=
  let out : list (list cell_value) :=
    replicate (Z.to_nat M) (replicate (Z.to_nat K) None) in
  for_lt 0 ROW_TILES (fun rowTile out =>
    let rowRange := getTileRange rowTile M in
    for_lt 0 COL_TILES (fun colTile out =>
      let colRange := getTileRange colTile K in
      let contributions := tileContributionCount step rowTile colTile in
      if contributions <=? 0 then Some out (* continue *)
      else
        for_le rowRange.1 rowRange.2 (fun r out =>
          for_le colRange.1 colRange.2 (fun c out =>
            sum ← for_lt 0 contributions (fun innerTile sum =>
                     let innerRange := getTileRange innerTile N in
                     for_le innerRange.1 innerRange.2 (fun n sum =>
                       a ← read2 matrixA r n;
                       b ← read2 matrixB n c;
                       Some (js_add sum (js_mul a b))) sum) (Int 0);
            write2 out r c sum) out) out) out) out.

(** The step decoder of [TiledMatmulGeminiDemo]: the triple
    [(rowTile, colTile, innerTile)]. *)
Definition decodeStep (step : Z) : Z * Z * Z :=
  let inner := Z.rem step INNER_TILES in
  let col := Z.rem (step / INNER_TILES) COL_TILES in
  let row := step / (INNER_TILES * COL_TILES) in
  (row, col, inner).

(** The per-tile progress map handed to the output grid. *)
Definition cTileProgress (step : Z) : list (list Z) :=
  (fun r => (fun c => tileContributionCount step r c) <$> seqZ 0 COL_TILES)
    <$> seqZ 0 ROW_TILES.

(** *** The controller

    The React state of the component is the pair [step], [isPlaying]; the
    effect that depends on [isPlaying] owns the interval timer.  [timer]
    records whether an interval is installed. *)
Record State : Type := mkState {
  step : Z;
  isPlaying : bool;
  timer : bool;
}.

Definition initial : State := mkState 0 false false.

Definition setStep (f : Z -> Z) (s : State) : State :=
  mkState (f (step s)) (isPlaying s) (timer s).

Definition setIsPlaying (f : bool -> bool) (s : State) : State :=
  mkState (step s) (f (isPlaying s)) (timer s).

(** The effect after a render: the cleanup clears the interval of the
    previous render, and a new interval is installed only while
    [isPlaying] holds. *)
Definition runEffect (s : State) : State :=
  mkState (step s) (isPlaying s) (isPlaying s).

Definition reset (s : State) : State :=
  setStep (fun _ => 0) (setIsPlaying (fun _ => false) s).

Definition prevStep (s : State) : State :=
  setStep (fun prev => Z.rem (prev - 1 + TOTAL_STEPS) TOTAL_STEPS)
          (setIsPlaying (fun _ => false) s).

Definition nextStep (s : State) : State :=
  setStep (fun prev => Z.rem (prev + 1) TOTAL_STEPS)
          (setIsPlaying (fun _ => false) s).

Definition togglePlay (s : State) : State :=
  setIsPlaying negb s.

(** The [onChange] handler of the step slider; [value] is
    [Number(event.currentTarget.value)]. *)
Definition seek (value : Z) (s : State) : State :=
  setStep (fun _ => value) (setIsPlaying (fun _ => false) s).

(** The interval callback; it only runs while an interval is installed. *)
Definition tick (s : State) : State :=
  if timer s then setStep (fun prev => Z.rem (prev + 1) TOTAL_STEPS) s else s.

Inductive event : Type :=
  | Prev | Next | Reset | TogglePlay | Seek (value : Z) | Tick.

Definition handle (e : event) (s : State) : State :=
  runEffect
    match e with
    | Prev => prevStep s
    | Next => nextStep s
    | Reset => reset s
    | TogglePlay => togglePlay s
    | Seek v => seek v s
    | Tick => tick s
    end.

Definition run (es : list event) (s : State) : State :=
  foldl (fun s e => handle e s) s es.

End Config.
End TiledMatmul.

(** The configuration of the source. *)
Module Demo.
Definition TILE_SIZE : Z := 4.
Definition M : Z := 7.
Definition N : Z := 6.
Definition K : Z := 9.

Definition ROW_TILES : Z := TiledMatmul.ROW_TILES TILE_SIZE M.
Definition INNER_TILES : Z := TiledMatmul.INNER_TILES TILE_SIZE N.
Definition COL_TILES : Z := TiledMatmul.COL_TILES TILE_SIZE K.
Definition TOTAL_STEPS : Z := TiledMatmul.TOTAL_STEPS TILE_SIZE M N K.

Definition getTileRange : Z -> Z -> Z * Z := TiledMatmul.getTileRange TILE_SIZE.
Definition tileContributionCount : Z -> Z -> Z -> Z :=
  TiledMatmul.tileContributionCount TILE_SIZE N K.
Definition buildPartialC := TiledMatmul.buildPartialC TILE_SIZE M N K.
Definition decodeStep : Z -> Z * Z * Z := TiledMatmul.decodeStep TILE_SIZE N K.

Definition matrixA : list (list Z) := buildMatrix M N 1.
Definition matrixB : list (list Z) := buildMatrix N K 3.

Definition handle := TiledMatmul.handle TILE_SIZE M N K.
Definition run := TiledMatmul.run TILE_SIZE M N K.
End Demo.

(** The slider handler of the im2col visualizer in the same file. *)
Module Im2Col.
Definition IMAGE_SIZE : Z := 5.
Definition KERNEL_SIZE : Z := 2.
Definition OUTPUT_SIZE : Z := IMAGE_SIZE - KERNEL_SIZE + 1.
Definition TOTAL_STEPS : Z := OUTPUT_SIZE * OUTPUT_SIZE.

Record State : Type := mkState {
  step : Z;
  isPlaying : bool;
}.

Definition handleSlider (value : Z) (s : State) : State :=
  mkState (Z.max 0 (Z.min (TOTAL_STEPS - 1) value)) false.
End Im2Col.

(** ** Reference definitions for the statements *)

(** [clamp x lo hi]: [x] forced into [[lo, hi]]. *)
Definition clamp (x lo hi : Z) : Z := Z.max lo (Z.min hi x).

(** The outcome of a call of a function that may reject its arguments. *)
Inductive result (A : Type) : Type :=
  | Ok (a : A)
  | InvalidArgument.
Arguments Ok {A} a.
Arguments InvalidArgument {A}.

(** The contract of the tile-range function as the design document words
    it: an [InvalidArgument] failure for a tile index below zero or past the
    extent, the inclusive range of the tile otherwise. *)
Definition tileRange_contract (tileIndex dimExtent tileSize : Z) : result (Z * Z) :=
  if (tileIndex <? 0) || (dimExtent <=? tileIndex * tileSize)
  then InvalidArgument
  else Ok (tileIndex * tileSize,
           Z.min (tileIndex * tileSize + tileSize - 1) (dimExtent - 1)).

(** What a call of [getTileRange] produces: its body is two arithmetic
    expressions and a [return], so every call returns. *)
Definition getTileRange_call (TILE_SIZE tileIndex maxSize : Z) : result (Z * Z) :=
  Ok (TiledMatmul.getTileRange TILE_SIZE tileIndex maxSize).

(** The linear index of a triple: row tile slowest, inner tile fastest. *)
Definition encodeStep (colTiles innerTiles : Z) (t : Z * Z * Z) : Z :=
  let '(row, col, inner) := t in (row * colTiles + col) * innerTiles + inner.

(** Lexicographic order on triples (row tile, column tile, inner tile). *)
Definition triple_lt (t u : Z * Z * Z) : Prop :=
  let '(r1, c1, i1) := t in
  let '(r2, c2, i2) := u in
  r1 < r2 \/ (r1 = r2 /\ (c1 < c2 \/ (c1 = c2 /\ i1 < i2))).

Definition triple_in (rowTiles colTiles innerTiles : Z) (t : Z * Z * Z) : Prop :=
  let '(r, c, i) := t in
  0 <= r < rowTiles /\ 0 <= c < colTiles /\ 0 <= i < innerTiles.

(** All triples, enumerated row tile first and inner tile last. *)
Definition all_triples (rowTiles colTiles innerTiles : Z) : list (Z * Z * Z) :=
  r ← seqZ 0 rowTiles; c ← seqZ 0 colTiles; i ← seqZ 0 innerTiles; [(r, c, i)].

(** [sumZ f n] is the sum of [f 0], ..., [f (n - 1)]. *)
Fixpoint sumZ (f : Z -> Z) (n : nat) : Z :=
  match n with
  | O => 0
  | S n' => sumZ f n' + f (Z.of_nat n')
  end.

(** The entry [m[r][n]] of an integer matrix (0 outside the matrix). *)
Definition entry (m : list (list Z)) (r n : Z) : Z :=
  default 0 (array_get m r ≫= fun row => array_get row n).

(** The sum of [A[r][j] * B[j][c]] over the first [n] inner indices [j]. *)
Definition dot_prefix (A B : list (list Z)) (r c : Z) (n : nat) : Z :=
  sumZ (fun j => entry A r j * entry B j c) n.


(** A matrix of integers as an output matrix whose every cell is set. *)
Definition all_set (m : list (list Z)) : list (list cell_value) :=
  (fun row : list Z => (fun z => Some (Int z)) <$> row) <$> m.

(** [has_shape rows cols m]: [m] is a [rows x cols] array of arrays. *)
Definition has_shape {A : Type} (rows cols : Z) (m : list (list A)) : Prop :=
  Z.of_nat (length m) = rows /\ Forall (fun row => Z.of_nat (length row) = cols) m.

(** [out[r][c]] of the materialized matrix. *)
Definition cell (out : list (list cell_value)) (r c : Z) : cell_value :=
  array_get out r ≫= fun row => mjoin (array_get row c).

(** The cell [(r, c)] that the materializer is to show at a step: nothing
    while the tile of the cell has no contribution, and otherwise the sum
    over the inner indices of the contributions folded in so far. *)
Definition expected_cell (TILE_SIZE N K : Z) (A B : list (list Z)) (step r c : Z)
  : cell_value :=
  let k := TiledMatmul.tileContributionCount TILE_SIZE N K step
             (r / TILE_SIZE) (c / TILE_SIZE) in
  if k <=? 0 then None
  else Some (Int (dot_prefix A B r c (Z.to_nat (Z.min (k * TILE_SIZE) N)))).

(** Loop invariant of the materializer: [out] is an [M x K] matrix, the
    cells of [region] hold what [want] says, and only cells of [region]
    have been set. *)
Definition filled (M K : Z) (want : Z -> Z -> cell_value) (region : Z -> Z -> Prop)
    (out : list (list cell_value)) : Prop :=
  has_shape M K out
  /\ forall r c, 0 <= r < M -> 0 <= c < K ->
       (region r c -> cell out r c = want r c)
       /\ (cell out r c = None \/ region r c).

(** ** The grids of the tiled visualizer

    [MatrixGrid] renders one [MatrixCell] per entry of a matrix.  A rendered
    cell is described by what the markup depends on: its class, the two
    border widths, the number it shows and the progress label. *)
Module TiledView.

(** The [tone] property: ['a'], ['b'] or ['c']. *)
Inductive tone : Type := ToneA | ToneB | ToneC.

(** The class strings that [matrixCellClasses] returns. *)
Inductive cell_class : Type :=
  | Cell                (* 'cell' *)
  | CellActiveA         (* 'cell cell--active-a' *)
  | CellActiveB         (* 'cell cell--active-b' *)
  | CellActiveCFinal    (* 'cell cell--active-c-final' *)
  | CellActiveCPartial  (* 'cell cell--active-c-partial' *)
  | CellDoneFinal       (* 'cell cell--done-final' *)
  | CellDonePartial.    (* 'cell cell--done-partial' *)

Record TileRange : Type := mkTileRange {
  row : Z * Z;
  col : Z * Z;
}.

Record CellView : Type := mkCellView {
  className : cell_class;
  borderRightWidth : Z;
  borderBottomWidth : Z;
  (** the number in the [span]; [None] when [typeof value] is not ['number'] *)
  text : cell_value;
  (** the [em] label [tileProgress/INNER_TILES], when shown *)
  progressLabel : option (Z * Z);
}.

Section Config.
Variables TILE_SIZE M N K : Z.

Definition inRange (index : Z) (bounds : option (Z * Z)) : bool :=
  match bounds with
  | None => false
  | Some b => (index >=? b.1) && (index <=? b.2)
  end.

Definition matrixCellClasses (t : tone) (isActive : bool) (tileProgress : Z)
  : cell_class :=
  match t with
  | ToneC =>
      if isActive then
        if tileProgress >=? TiledMatmul.INNER_TILES TILE_SIZE N then CellActiveCFinal
        else if tileProgress >? 0 then CellActiveCPartial
        else CellActiveCPartial
      else if tileProgress >=? TiledMatmul.INNER_TILES TILE_SIZE N then CellDoneFinal
      else if tileProgress >? 0 then CellDonePartial
      else Cell
  | _ =>
      if isActive then
        match t with
        | ToneA => CellActiveA
        | _ => CellActiveB
        end
      else Cell
  end.

(** [MatrixCell]; [activeRange?.row] and [activeRange?.col] are the two
    optional bounds handed to [inRange]. *)
Definition MatrixCell (r c rows cols : Z) (value : cell_value)
    (activeRange : option TileRange) (t : tone) (tileProgress : Z)
    (showProgressLabel : bool) : CellView :=
  let isActive := inRange r (row <$> activeRange) && inRange c (col <$> activeRange) in
  let tileEdgeRight := (Z.rem (c + 1) TILE_SIZE =? 0) && (c + 1 <? cols) in
  let tileEdgeBottom := (Z.rem (r + 1) TILE_SIZE =? 0) && (r + 1 <? rows) in
  let cls := matrixCellClasses t isActive tileProgress in
  mkCellView cls
    (if tileEdgeRight then 2 else 1)
    (if tileEdgeBottom then 2 else 1)
    value
    (if showProgressLabel
     then Some (tileProgress, TiledMatmul.INNER_TILES TILE_SIZE N)
     else None).

(** [MatrixGrid]: the cells in document order.  [values?.[r]?.[c]] and
    [tileProgressMap?.[tileR]?.[tileC] ?? 0] are optional-chained reads. *)
Definition MatrixGrid (rows cols : Z) (values : option (list (list cell_value)))
    (activeRange : option TileRange) (t : tone)
    (tileProgressMap : option (list (list Z))) (showProgressLabels : bool)
  : list CellView :=
  (fun index =>
     let r := index / cols in
     let c := Z.rem index cols in
     let tileR := r / TILE_SIZE in
     let tileC := c / TILE_SIZE in
     let tileProgress :=
       default 0 (tileProgressMap ≫= fun m =>
                  array_get m tileR ≫= fun progressRow =>
                  array_get progressRow tileC) in
     let isLabelCell :=
       showProgressLabels && (Z.rem r TILE_SIZE =? 0) && (Z.rem c TILE_SIZE =? 0) in
     MatrixCell r c rows cols (values ≫= fun v => cell v r c)
                activeRange t tileProgress isLabelCell)
    <$> seqZ 0 (rows * cols).

(** The three highlighted ranges of [TiledMatmulGeminiDemo]. *)
Definition activeA (step : Z) : TileRange :=
  let '(rowTile, colTile, innerTile) := TiledMatmul.decodeStep TILE_SIZE N K step in
  mkTileRange (TiledMatmul.getTileRange TILE_SIZE rowTile M)
              (TiledMatmul.getTileRange TILE_SIZE innerTile N).

Definition activeB (step : Z) : TileRange :=
  let '(rowTile, colTile, innerTile) := TiledMatmul.decodeStep TILE_SIZE N K step in
  mkTileRange (TiledMatmul.getTileRange TILE_SIZE innerTile N)
              (TiledMatmul.getTileRange TILE_SIZE colTile K).

Definition activeC (step : Z) : TileRange :=
  let '(rowTile, colTile, innerTile) := TiledMatmul.decodeStep TILE_SIZE N K step in
  mkTileRange (TiledMatmul.getTileRange TILE_SIZE rowTile M)
              (TiledMatmul.getTileRange TILE_SIZE colTile K).

(** The two operand matrices of the component. *)
Definition matrixA : list (list Z) := buildMatrix M N 1.
Definition matrixB : list (list Z) := buildMatrix N K 3.

(** The three grids that the component renders at a step; the third one
    needs [buildPartialC] to return. *)
Definition gridA (step : Z) : list CellView :=
  MatrixGrid M N (Some (all_set matrixA)) (Some (activeA step)) ToneA None false.

Definition gridB (step : Z) : list CellView :=
  MatrixGrid N K (Some (all_set matrixB)) (Some (activeB step)) ToneB None false.

Definition gridC (step : Z) : option (list CellView) :=
  partialC ← TiledMatmul.buildPartialC TILE_SIZE M N K matrixA matrixB step;
  Some (MatrixGrid M K (Some partialC) (Some (activeC step)) ToneC
          (Some (TiledMatmul.cTileProgress TILE_SIZE M N K step)) true).

End Config.
End TiledView.

(** ** The im2col visualizer *)
Module Im2ColViz.

Definition buildImage (size : Z) : list (list Z) :=
  (fun y => (fun x => Z.rem (x + y) 10) <$> seqZ 0 size) <$> seqZ 0 size.

Definition buildKernel (size : Z) : list (list Z) :=
  (fun y => (fun x => Z.rem (x * y + 1) 5) <$> seqZ 0 size) <$> seqZ 0 size.



Inductive Mode : Type := conv | im2col.

Record State : Type := mkState {
  mode : Mode;
  step : Z;
  isPlaying : bool;
  timer : bool;
}.

Inductive event : Type :=
  | TogglePlay | StepOnce | Reset | SwitchMode (nextMode : Mode)
  | Slider (value : Z) | Tick.

Section Config.
Variables IMAGE_SIZE KERNEL_SIZE : Z.

Definition KERNEL_VECTOR_SIZE : Z := KERNEL_SIZE * KERNEL_SIZE.
Definition OUTPUT_SIZE : Z := IMAGE_SIZE - KERNEL_SIZE + 1.
Definition TOTAL_STEPS : Z := OUTPUT_SIZE * OUTPUT_SIZE.

(** [buildIm2Col]: [rows.push] and [row.push] append; an element read past
    the end of an image row is pushed as [undefined] ([None]), a missing
    image row throws. *)
Definition buildIm2Col (image : list (list Z)) : option (list (list (option Z))) :=
  for_le 0 (IMAGE_SIZE - KERNEL_SIZE) (fun y rows =>
    for_le 0 (IMAGE_SIZE - KERNEL_SIZE) (fun x rows =>
      row ← for_lt 0 KERNEL_SIZE (fun ky row =>
               for_lt 0 KERNEL_SIZE (fun kx row =>
                 imageRow ← array_get image (y + ky);
                 Some (row ++ [array_get imageRow (x + kx)])) row) [];
      Some (rows ++ [row])) rows) [].


Definition currentX (step : Z) : Z := Z.rem step OUTPUT_SIZE.
Definition currentY (step : Z) : Z := step / OUTPUT_SIZE.


Definition activePatch (im2colRows : list (list (option Z))) (step : Z)
  : list (option Z) :=
  default [] (array_get im2colRows step).

(** The highlight test of an image cell [(x, y)]. *)
Definition active (step x y : Z) : bool :=
  (x >=? currentX step) && (x <? currentX step + KERNEL_SIZE)
  && (y >=? currentY step) && (y <? currentY step + KERNEL_SIZE).

Definition initial : State := mkState conv 0 false false.

Definition runEffect (s : State) : State :=
  mkState (mode s) (step s) (isPlaying s) (isPlaying s).

Definition reset (s : State) : State :=
  mkState (mode s) 0 false (timer s).

Definition switchMode (nextMode : Mode) (s : State) : State :=
  reset (mkState nextMode (step s) (isPlaying s) (timer s)).

Definition stepOnce (s : State) : State :=
  mkState (mode s)
          (if step s + 1 >=? TOTAL_STEPS then 0 else step s + 1)
          false (timer s).

Definition handleSlider (value : Z) (s : State) : State :=
  mkState (mode s) (Z.max 0 (Z.min (TOTAL_STEPS - 1) value)) false (timer s).

Definition togglePlay (s : State) : State :=
  mkState (mode s) (step s) (negb (isPlaying s)) (timer s).

(** The interval callback: at the last step it pauses instead of moving. *)
Definition tick (s : State) : State :=
  if timer s then
    if step s >=? TOTAL_STEPS - 1
    then mkState (mode s) (step s) false (timer s)
    else mkState (mode s) (step s + 1) (isPlaying s) (timer s)
  else s.

Definition handle (e : event) (s : State) : State :=
  runEffect
    match e with
    | TogglePlay => togglePlay s
    | StepOnce => stepOnce s
    | Reset => reset s
    | SwitchMode m => switchMode m s
    | Slider v => handleSlider v s
    | Tick => tick s
    end.

Definition run (es : list event) (s : State) : State :=
  foldl (fun s e => handle e s) s es.

End Config.
End Im2ColViz.

(** ** Reference definitions for the further properties *)

(** The sum of a list of integers. *)
Definition sum_list (l : list Z) : Z := foldr Z.add 0 l.


(** The receptive field at [(y, x)], row by row. *)
Definition patch_at (size : Z) (image : list (list Z)) (y x : Z) : list (option Z) :=
  ky ← seqZ 0 size; kx ← seqZ 0 size; [Some (entry image (y + ky) (x + kx))].

(** An inclusive range that is not empty and lies inside [0, extent). *)
Definition range_within (extent : Z) (p : Z * Z) : Prop :=
  0 <= p.1 /\ p.1 <= p.2 /\ p.2 < extent.

(** The classes of a highlighted cell, and the classes of a cell whose tile
    is fully accumulated. *)
Definition highlighted (cls : TiledView.cell_class) : bool :=
  match cls with
  | TiledView.CellActiveA | TiledView.CellActiveB
  | TiledView.CellActiveCFinal | TiledView.CellActiveCPartial => true
  | _ => false
  end.

Definition final (cls : TiledView.cell_class) : bool :=
  match cls with
  | TiledView.CellActiveCFinal | TiledView.CellDoneFinal => true
  | _ => false
  end.

(** An event whose slider value, if it is a slider event, lies in
    [0, total): what the range input of the tiled visualizer delivers. *)
Definition slider_value_within (total : Z) (e : TiledMatmul.event) : Prop :=
  match e with
  | TiledMatmul.Seek v => 0 <= v < total
  | _ => True
  end.

(** ** The photo grid ([FlickrRecent])

    The regular-expression rewrite [toFlickrSizedUrl] is not modelled: it
    is a parameter of [featuredImageCandidates], and what is proved about the
    candidates holds for every string function. *)
Module FlickrRecent.

(** ['portrait'], ['landscape'], ['square']. *)
Inductive Orientation : Type := portrait | landscape | square.

Global Instance Orientation_eq_dec : EqDecision Orientation.
Proof. solve_decision. Defined.

(** The [section] argument of [renderCard]: ['portrait'] or ['wide']. *)
Inductive CardSection : Type := SectionPortrait | SectionWide.

(** The aspect-ratio strings ['3 / 4'], ['1 / 1'] and ['16 / 9']. *)
Inductive AspectRatio : Type := Ratio_3_4 | Ratio_1_1 | Ratio_16_9.

Record FlickrItem : Type := mkFlickrItem {
  title : string;
  link : string;
  imageUrl : string;
  publishedAt : option string;
  dateTaken : option string;
  tags : list string;
  width : option Z;
  height : option Z;
  orientation : Orientation;
}.

Definition MAX_ROWS : Z := 3.
Definition MAX_ITEMS : Z := 36.

Definition thumbAspectRatioForSection (section : CardSection) (o : Orientation)
  : AspectRatio :=
  match section with
  | SectionPortrait =>
      match o with
      | portrait => Ratio_3_4
      | _ => Ratio_1_1
      end
  | SectionWide =>
      match o with
      | portrait => Ratio_3_4
      | _ => Ratio_16_9
      end
  end.

(** A string used as a condition: the empty string is falsy. *)
Definition truthy (s : string) : bool :=
  match s with
  | EmptyString => false
  | _ => true
  end.

(** [arr.slice(0, end)]: a negative [end] counts from the end of the array. *)
Definition slice0 {A : Type} (arr : list A) (end_ : Z) : list A :=
  take (Z.to_nat (if end_ <? 0 then Z.max 0 (Z.of_nat (length arr) + end_) else end_))
       arr.

(** [arr.indexOf(x)]: the first index that holds [x], or -1. *)
Definition indexOf (arr : list string) (x : string) : Z :=
  match list_find (fun y => y = x) arr with
  | Some (i, _) => Z.of_nat i
  | None => -1
  end.

(** [arr.filter((x, index) => p(x, index))], the index starting at [i]. *)
Fixpoint filter_from {A : Type} (p : A -> Z -> bool) (i : Z) (arr : list A) : list A :=
  match arr with
  | [] => []
  | x :: rest => (if p x i then [x] else []) ++ filter_from p (i + 1) rest
  end.

(** The layout numbers derived from the [columns] state. *)
Definition wideColumns (columns : Z) : Z := Z.max 1 (ceil_div columns 2).
Definition portraitTarget (columns : Z) : Z := columns * MAX_ROWS.
Definition wideTarget (columns : Z) : Z := wideColumns columns * MAX_ROWS.
Definition requestedLimit (columns : Z) : Z :=
  Z.min MAX_ITEMS (Z.max (portraitTarget columns + wideTarget columns) 20).

(** The two sections of cards. *)
Definition portraitItems (items : list FlickrItem) (columns : Z) : list FlickrItem :=
  slice0 (filter (fun item => orientation item = portrait) items)
         (portraitTarget columns).

Definition wideItems (items : list FlickrItem) (columns : Z) : list FlickrItem :=
  slice0 (filter (fun item => orientation item <> portrait) items)
         (wideTarget columns).

(** [featuredItem]: the first item whose link is the featured link. *)
Definition featuredItem (items : list FlickrItem) (featuredLink : option string)
  : option FlickrItem :=
  match featuredLink with
  | Some l =>
      if truthy l then snd <$> list_find (fun item => link item = l) items else None
  | None => None
  end.

(** The effect that drops a featured link which no item carries. *)
Definition syncFeaturedLink (items : list FlickrItem) (featuredLink : option string)
  : option string :=
  match featuredLink with
  | Some l =>
      if truthy l then
        if bool_decide (Exists (fun item => link item = l) items) then Some l
        else None
      else Some l
  | None => None
  end.

(** The click handler of a card: the new featured link and, when the card
    was already featured, the URL handed to [openFlickr]. *)
Definition clickCard (item : FlickrItem) (featuredLink : option string)
  : option string * option string :=
  if bool_decide (featuredLink = Some (link item))
  then (featuredLink, Some (link item))
  else (Some (link item), None).

Section Candidates.
Variable toFlickrSizedUrl : string -> string -> string.

Definition featuredImageCandidates (featured : option FlickrItem) : list string :=
  match featured with
  | None => []
  | Some item =>
      let source := imageUrl item in
      let candidates :=
        [toFlickrSizedUrl source "b"; toFlickrSizedUrl source "c";
         toFlickrSizedUrl source "z"; source] in
      filter_from (fun url index => bool_decide (indexOf candidates url = index))
                  0 candidates
  end.



End Candidates.
End FlickrRecent.

(** * Properties *)

Import TiledMatmul.

(** ** Arithmetic of tile counts *)

Lemma ceil_div_bounds (a b : Z) :
  0 < b -> (ceil_div a b - 1) * b < a <= ceil_div a b * b.
Proof.
  intros Hb. unfold ceil_div.
  pose proof (Z.div_mod (- a) b ltac:(lia)) as Hdm.
  pose proof (Z.mod_pos_bound (- a) b Hb) as Hm.
  nia.
Qed.

Lemma ceil_div_pos (a b : Z) : 0 < a -> 0 < b -> 0 < ceil_div a b.
Proof.
  intros Ha Hb. pose proof (ceil_div_bounds a b Hb) as H. nia.
Qed.

Lemma tile_of_index (t q x : Z) : 0 < t -> q * t <= x < q * t + t -> x / t = q.
Proof.
  intros Ht Hx. symmetry. apply (Z.div_unique x t q (x - q * t)); lia.
Qed.

Section TilingFacts.
Variables TILE_SIZE M N K : Z.
Hypothesis tile_pos : 0 < TILE_SIZE.

Lemma INNER_TILES_pos : 0 < N -> 0 < INNER_TILES TILE_SIZE N.
Proof. intros. by apply ceil_div_pos. Qed.

Lemma COL_TILES_pos : 0 < K -> 0 < COL_TILES TILE_SIZE K.
Proof. intros. by apply ceil_div_pos. Qed.

Lemma ROW_TILES_pos : 0 < M -> 0 < ROW_TILES TILE_SIZE M.
Proof. intros. by apply ceil_div_pos. Qed.

Lemma TOTAL_STEPS_pos :
  0 < M -> 0 < N -> 0 < K -> 0 < TOTAL_STEPS TILE_SIZE M N K.
Proof.
  intros HM HN HK. unfold TOTAL_STEPS.
  pose proof (ROW_TILES_pos HM). pose proof (COL_TILES_pos HK).
  pose proof (INNER_TILES_pos HN). nia.
Qed.
End TilingFacts.

(** ** The step decoder *)

Section Decoder.
Variables colTiles innerTiles : Z.
Hypothesis col_pos : 0 < colTiles.
Hypothesis inner_pos : 0 < innerTiles.

(** The three components computed by [decodeStep], over the tile counts. *)
Local Abbreviation decode s :=
  (s / (innerTiles * colTiles), Z.rem (s / innerTiles) colTiles, Z.rem s innerTiles).

Lemma decode_mod (s : Z) :
  0 <= s ->
  decode s = (s / innerTiles / colTiles, (s / innerTiles) mod colTiles, s mod innerTiles).
Proof.
  intros Hs.
  rewrite !Z.rem_mod_nonneg by (try apply Z.div_pos; lia).
  by rewrite Z.div_div by lia.
Qed.

Lemma encode_decode (s : Z) : 0 <= s -> encodeStep colTiles innerTiles (decode s) = s.
Proof.
  intros Hs. rewrite decode_mod by done. unfold encodeStep.
  pose proof (Z.div_mod s innerTiles ltac:(lia)).
  pose proof (Z.div_mod (s / innerTiles) colTiles ltac:(lia)).
  nia.
Qed.

Lemma decode_encode (r c i : Z) :
  0 <= r -> 0 <= c < colTiles -> 0 <= i < innerTiles ->
  decode (encodeStep colTiles innerTiles (r, c, i)) = (r, c, i).
Proof.
  intros Hr Hc Hi.
  assert (0 <= (r * colTiles + c) * innerTiles + i) as Hs by nia.
  rewrite decode_mod by done. unfold encodeStep.
  assert (((r * colTiles + c) * innerTiles + i) / innerTiles = r * colTiles + c) as ->.
  { apply tile_of_index; lia. }
  assert (((r * colTiles + c) * innerTiles + i) mod innerTiles = i) as ->.
  { symmetry. apply (Z.mod_unique _ _ (r * colTiles + c)); lia. }
  assert ((r * colTiles + c) / colTiles = r) as ->.
  { apply tile_of_index; lia. }
  assert ((r * colTiles + c) mod colTiles = c) as ->.
  { symmetry. apply (Z.mod_unique _ _ r); lia. }
  done.
Qed.

Lemma decode_in (rowTiles s : Z) :
  0 <= s < rowTiles * colTiles * innerTiles ->
  triple_in rowTiles colTiles innerTiles (decode s).
Proof.
  intros Hs. rewrite decode_mod by lia. unfold triple_in.
  pose proof (Z.mod_pos_bound s innerTiles inner_pos).
  pose proof (Z.mod_pos_bound (s / innerTiles) colTiles col_pos).
  assert (0 <= s / innerTiles) by (apply Z.div_pos; lia).
  assert (0 <= s / innerTiles / colTiles) by (apply Z.div_pos; lia).
  assert (s / innerTiles / colTiles < rowTiles); [|lia].
  apply Z.div_lt_upper_bound; [lia|].
  apply Z.div_lt_upper_bound; [lia|]. nia.
Qed.

Lemma encode_in (rowTiles r c i : Z) :
  triple_in rowTiles colTiles innerTiles (r, c, i) ->
  0 <= encodeStep colTiles innerTiles (r, c, i) < rowTiles * colTiles * innerTiles.
Proof.
  unfold triple_in, encodeStep. intros (Hr & Hc & Hi).
  assert (r * colTiles + c + 1 <= rowTiles * colTiles) by nia.
  assert ((r * colTiles + c + 1) * innerTiles <= rowTiles * colTiles * innerTiles)
    by (apply Z.mul_le_mono_nonneg_r; lia).
  nia.
Qed.

Lemma encode_mono (t u : Z * Z * Z) (rowTiles : Z) :
  triple_in rowTiles colTiles innerTiles t ->
  triple_in rowTiles colTiles innerTiles u ->
  encodeStep colTiles innerTiles t < encodeStep colTiles innerTiles u ->
  triple_lt t u.
Proof.
  destruct t as [[r1 c1] i1], u as [[r2 c2] i2].
  unfold triple_in, triple_lt, encodeStep. intros Ht Hu Hlt.
  set (a := r1 * colTiles + c1) in *. set (b := r2 * colTiles + c2) in *.
  assert (a <= b) as Hab.
  { destruct (Z.le_gt_cases a b) as [|Hgt]; [done|].
    assert ((b + 1) * innerTiles <= a * innerTiles)
      by (apply Z.mul_le_mono_nonneg_r; lia).
    lia. }
  assert (a = b -> i1 < i2) as Heq by (intros Hq; rewrite Hq in Hlt; lia).
  subst a b.
  destruct (Z.lt_trichotomy r1 r2) as [?|[->|?]]; [lia| |nia].
  destruct (Z.lt_trichotomy c1 c2) as [?|[->|?]]; [lia| |lia].
  right. split; [done|]. right. split; [done|]. lia.
Qed.

(** Flattening [m] consecutive blocks of [n] indices. *)
Lemma seqZ_blocks (n : Z) (m : nat) :
  0 <= n ->
  seqZ 0 (Z.of_nat m) ≫= (fun q => (fun i => q * n + i) <$> seqZ 0 n)
  = seqZ 0 (Z.of_nat m * n).
Proof.
  intros Hn. induction m as [|m IH].
  - reflexivity.
  - rewrite seqZ_S, bind_app, IH, bind_singleton.
    replace (Z.of_nat (S m) * n) with (Z.of_nat m * n + n) by lia.
    rewrite seqZ_app by lia. f_equal.
    transitivity (Z.add (Z.of_nat m * n) <$> seqZ 0 n).
    + apply list_fmap_ext. intros; lia.
    + rewrite fmap_add_seqZ. f_equal; lia.
Qed.

Lemma fmap_bind_list {A B C : Type} (f : B -> C) (g : A -> list B) (l : list A) :
  f <$> (l ≫= g) = l ≫= (fun x => f <$> g x).
Proof.
  induction l as [|x l IH]; [done|].
  by rewrite !bind_cons, fmap_app, IH.
Qed.

Lemma bind_ret_fmap {A B : Type} (f : A -> B) (l : list A) :
  l ≫= (fun x => [f x]) = f <$> l.
Proof. induction l as [|x l IH]; [done|]. by rewrite bind_cons, IH. Qed.

Lemma encode_all_triples (rowTiles : Z) :
  0 <= rowTiles ->
  encodeStep colTiles innerTiles <$> all_triples rowTiles colTiles innerTiles
  = seqZ 0 (rowTiles * colTiles * innerTiles).
Proof.
  intros Hr. unfold all_triples. rewrite fmap_bind_list.
  pose proof (seqZ_blocks (colTiles * innerTiles) (Z.to_nat rowTiles) ltac:(lia)) as Ha.
  rewrite Z2Nat.id in Ha by lia. rewrite <- Z.mul_assoc, <- Ha.
  apply list_bind_ext; [|done]. intros r.
  transitivity (Z.add (r * (colTiles * innerTiles))
                  <$> (seqZ 0 colTiles ≫= fun c => (fun i => c * innerTiles + i) <$> seqZ 0 innerTiles)).
  - rewrite !fmap_bind_list. apply list_bind_ext; [|done]. intros c.
    rewrite (bind_ret_fmap (fun i => (r, c, i))), <- !list_fmap_compose.
    apply list_fmap_ext. intros i. simpl. lia.
  - pose proof (seqZ_blocks innerTiles (Z.to_nat colTiles) ltac:(lia)) as Hb.
    rewrite Z2Nat.id in Hb by lia. rewrite Hb.
    by apply list_fmap_ext.
Qed.

Lemma all_triples_in (rowTiles : Z) (t : Z * Z * Z) :
  t ∈ all_triples rowTiles colTiles innerTiles ->
  triple_in rowTiles colTiles innerTiles t.
Proof.
  unfold all_triples. intros Ht.
  apply list_elem_of_bind in Ht as (r & Ht & Hr%elem_of_seqZ).
  apply list_elem_of_bind in Ht as (c & Ht & Hc%elem_of_seqZ).
  apply list_elem_of_bind in Ht as (i & Ht & Hi%elem_of_seqZ).
  apply list_elem_of_singleton in Ht as ->. unfold triple_in. lia.
Qed.

Lemma decode_enumerates (rowTiles : Z) :
  0 <= rowTiles ->
  (fun s => decode s) <$> seqZ 0 (rowTiles * colTiles * innerTiles)
  = all_triples rowTiles colTiles innerTiles.
Proof.
  intros Hr. rewrite <- encode_all_triples by done.
  rewrite <- list_fmap_compose.
  rewrite <- (list_fmap_id (all_triples _ _ _)) at 2.
  apply Forall_fmap_ext, list.Forall_forall. intros [[r c] i] Ht%all_triples_in.
  unfold triple_in in Ht.
  exact (decode_encode r c i ltac:(lia) ltac:(lia) ltac:(lia)).
Qed.
End Decoder.

(** C2. For positive dimensions the step decoder is a bijection from
    [0, TOTAL_STEPS) onto the triples (row tile, column tile, inner tile):
    every decoded triple lies in the product, every triple of the product is
    the image of exactly one step, steps are decoded in increasing
    lexicographic order (inner tile fastest, then column tile, then row
    tile), and the list of the decoded steps 0 .. TOTAL_STEPS - 1 is the
    enumeration of the product in that order. *)
Theorem decodeStep_bijection (TILE_SIZE M N K : Z) :
  0 < TILE_SIZE -> 0 < M -> 0 < N -> 0 < K ->
  (forall s, 0 <= s < TOTAL_STEPS TILE_SIZE M N K ->
     triple_in (ROW_TILES TILE_SIZE M) (COL_TILES TILE_SIZE K) (INNER_TILES TILE_SIZE N)
               (decodeStep TILE_SIZE N K s))
  /\ (forall t,
        triple_in (ROW_TILES TILE_SIZE M) (COL_TILES TILE_SIZE K) (INNER_TILES TILE_SIZE N) t ->
        exists s, (0 <= s < TOTAL_STEPS TILE_SIZE M N K /\ decodeStep TILE_SIZE N K s = t)
                  /\ forall s', 0 <= s' < TOTAL_STEPS TILE_SIZE M N K ->
                                decodeStep TILE_SIZE N K s' = t -> s' = s)
  /\ (forall s1 s2, 0 <= s1 -> s1 < s2 -> s2 < TOTAL_STEPS TILE_SIZE M N K ->
        triple_lt (decodeStep TILE_SIZE N K s1) (decodeStep TILE_SIZE N K s2))
  /\ decodeStep TILE_SIZE N K <$> seqZ 0 (TOTAL_STEPS TILE_SIZE M N K)
     = all_triples (ROW_TILES TILE_SIZE M) (COL_TILES TILE_SIZE K) (INNER_TILES TILE_SIZE N).
Proof.
  intros HT HM HN HK.
  pose proof (ROW_TILES_pos TILE_SIZE M HT HM) as HR.
  pose proof (COL_TILES_pos TILE_SIZE K HT HK) as HC.
  pose proof (INNER_TILES_pos TILE_SIZE N HT HN) as HI.
  unfold TOTAL_STEPS, decodeStep.
  set (R := ROW_TILES TILE_SIZE M) in *.
  set (C := COL_TILES TILE_SIZE K) in *.
  set (I := INNER_TILES TILE_SIZE N) in *.
  split; [|split; [|split]].
  - intros s Hs. by apply decode_in.
  - intros [[r c] i] Ht. pose proof Ht as (Hr & Hc & Hi).
    exists (encodeStep C I (r, c, i)). split; [split|].
    + by apply (encode_in C I HC HI R).
    + apply decode_encode; lia.
    + intros s' Hs' Hdec. rewrite <- Hdec. symmetry. apply encode_decode; lia.
  - intros s1 s2 H1 H12 H2.
    apply (encode_mono C I HC HI _ _ R).
    + apply decode_in; lia.
    + apply decode_in; lia.
    + rewrite !encode_decode by lia. done.
  - apply (decode_enumerates C I HC HI R). lia.
Qed.

Lemma decodeStep_bijection_witness :
  triple_in 2 3 2 (Demo.decodeStep 7)
  /\ (exists s, (0 <= s < 12 /\ Demo.decodeStep s = (1, 0, 1))
                /\ forall s', 0 <= s' < 12 -> Demo.decodeStep s' = (1, 0, 1) -> s' = s)
  /\ triple_lt (Demo.decodeStep 7) (Demo.decodeStep 8)
  /\ Demo.decodeStep <$> seqZ 0 12 = all_triples 2 3 2.
Proof.
  destruct (decodeStep_bijection 4 7 6 9) as (H1 & H2 & H3 & H4); [lia..|].
  split; [|split; [|split]].
  - apply (H1 7). by vm_compute.
  - apply (H2 (1, 0, 1)). by vm_compute.
  - apply (H3 7 8); [lia|lia|reflexivity].
  - exact H4.
Defined.

(** C3. The progress counter of an output tile is the clamp of
    [s - (rt * colTiles + ct) * innerTiles + 1] into [0, innerTiles]; it is
    a function of [(s, rt, ct)] alone.  This holds for every step and every
    tile index, in particular for [s >= 0] and tiles inside the grid. *)
Theorem tileContributionCount_clamp (TILE_SIZE N K : Z) :
  0 < TILE_SIZE -> 0 < N ->
  forall s rt ct,
    tileContributionCount TILE_SIZE N K s rt ct
    = clamp (s - (rt * COL_TILES TILE_SIZE K + ct) * INNER_TILES TILE_SIZE N + 1)
            0 (INNER_TILES TILE_SIZE N).
Proof.
  intros HT HN s rt ct.
  pose proof (INNER_TILES_pos TILE_SIZE N HT HN) as HI.
  unfold tileContributionCount, clamp.
  destruct (Z.leb_spec (s - (rt * COL_TILES TILE_SIZE K + ct) * INNER_TILES TILE_SIZE N + 1) 0);
    lia.
Qed.

Lemma tileContributionCount_clamp_witness :
  Demo.tileContributionCount 3 0 1 = clamp (3 - (0 * 3 + 1) * 2 + 1) 0 2.
Proof. apply (tileContributionCount_clamp 4 6 9); lia. Defined.

(** C4. For a fixed output tile the progress counter never decreases as the
    step grows; it is 0 at every step before the tile's first contribution
    step [(rt * colTiles + ct) * innerTiles]; it equals [innerTiles] exactly
    from the tile's last contribution step on, so once it has reached
    [innerTiles] it keeps that value at every later step.  This holds for
    all integer steps, in particular over [0, TOTAL_STEPS). *)
Theorem tileContributionCount_monotone (TILE_SIZE N K : Z) :
  0 < TILE_SIZE -> 0 < N ->
  forall rt ct,
    (forall s1 s2, s1 <= s2 ->
       tileContributionCount TILE_SIZE N K s1 rt ct
       <= tileContributionCount TILE_SIZE N K s2 rt ct)
    /\ (forall s, s < (rt * COL_TILES TILE_SIZE K + ct) * INNER_TILES TILE_SIZE N ->
          tileContributionCount TILE_SIZE N K s rt ct = 0)
    /\ (forall s, tileContributionCount TILE_SIZE N K s rt ct = INNER_TILES TILE_SIZE N <->
                  (rt * COL_TILES TILE_SIZE K + ct) * INNER_TILES TILE_SIZE N
                  + INNER_TILES TILE_SIZE N - 1 <= s)
    /\ (forall s s', tileContributionCount TILE_SIZE N K s rt ct = INNER_TILES TILE_SIZE N ->
                     s <= s' ->
                     tileContributionCount TILE_SIZE N K s' rt ct = INNER_TILES TILE_SIZE N).
Proof.
  intros HT HN rt ct.
  pose proof (INNER_TILES_pos TILE_SIZE N HT HN) as HI.
  unfold tileContributionCount.
  set (I := INNER_TILES TILE_SIZE N) in *.
  set (base := (rt * COL_TILES TILE_SIZE K + ct) * I).
  split; [|split; [|split]].
  - intros s1 s2 Hle.
    destruct (Z.leb_spec (s1 - base + 1) 0), (Z.leb_spec (s2 - base + 1) 0); lia.
  - intros s Hs. destruct (Z.leb_spec (s - base + 1) 0); lia.
  - intros s. destruct (Z.leb_spec (s - base + 1) 0); lia.
  - intros s s'.
    destruct (Z.leb_spec (s - base + 1) 0), (Z.leb_spec (s' - base + 1) 0); lia.
Qed.

Lemma tileContributionCount_monotone_witness :
  Demo.tileContributionCount 2 0 1 <= Demo.tileContributionCount 3 0 1
  /\ Demo.tileContributionCount 1 0 1 = 0
  /\ (Demo.tileContributionCount 3 0 1 = 2 <-> (0 * 3 + 1) * 2 + 2 - 1 <= 3)
  /\ Demo.tileContributionCount 11 0 1 = 2.
Proof.
  destruct (tileContributionCount_monotone 4 6 9 ltac:(lia) ltac:(lia) 0 1)
    as (H1 & H2 & H3 & H4).
  split; [|split; [|split]].
  - apply (H1 2 3). lia.
  - apply (H2 1). by vm_compute.
  - apply (H3 3).
  - apply (H4 3 11); [reflexivity|lia].
Defined.

(** C5, as the code has it.  [getTileRange] never fails.  For every valid
    tile index ([0 <= tileIndex] and [tileIndex * tileSize < dimExtent]) it
    returns the inclusive range
    [tileIndex * tileSize, min (tileIndex * tileSize + tileSize - 1) (dimExtent - 1)],
    which is what the contract asks for there, with [start <= end < dimExtent].
    For an extent of 7 and tiles of 4, tile 0 is [0, 3] and tile 1 is
    [4, 6]. *)
Theorem getTileRange_valid (TILE_SIZE tileIndex dimExtent : Z) :
  0 < TILE_SIZE -> 0 <= tileIndex -> tileIndex * TILE_SIZE < dimExtent ->
  getTileRange_call TILE_SIZE tileIndex dimExtent
  = Ok (tileIndex * TILE_SIZE,
        Z.min (tileIndex * TILE_SIZE + TILE_SIZE - 1) (dimExtent - 1))
  /\ getTileRange_call TILE_SIZE tileIndex dimExtent
     = tileRange_contract tileIndex dimExtent TILE_SIZE
  /\ (getTileRange TILE_SIZE tileIndex dimExtent).1
     <= (getTileRange TILE_SIZE tileIndex dimExtent).2 < dimExtent
  /\ Demo.getTileRange 0 7 = (0, 3)
  /\ Demo.getTileRange 1 7 = (4, 6).
Proof.
  intros HT Hi HE. unfold getTileRange_call, tileRange_contract, getTileRange.
  split; [done|]. split; [|split; [simpl; lia|done]].
  destruct (Z.ltb_spec tileIndex 0); [lia|].
  destruct (Z.leb_spec dimExtent (tileIndex * TILE_SIZE)); [lia|]. done.
Qed.

Lemma getTileRange_valid_witness :
  getTileRange_call 4 1 7 = Ok (1 * 4, Z.min (1 * 4 + 4 - 1) (7 - 1))
  /\ getTileRange_call 4 1 7 = tileRange_contract 1 7 4
  /\ (getTileRange 4 1 7).1 <= (getTileRange 4 1 7).2 < 7
  /\ Demo.getTileRange 0 7 = (0, 3)
  /\ Demo.getTileRange 1 7 = (4, 6).
Proof. apply (getTileRange_valid 4 1 7); lia. Defined.

(** C5, as stated, fails: for tile index -1 the contract demands an
    [InvalidArgument] failure, and the call returns the pair [(-4, -1)]. *)
Lemma getTileRange_rejects_nothing :
  ~ (getTileRange_call Demo.TILE_SIZE (-1) 7 = InvalidArgument
     <-> (-1 < 0 \/ -1 * Demo.TILE_SIZE >= 7))
  /\ tileRange_contract (-1) 7 Demo.TILE_SIZE = InvalidArgument
  /\ getTileRange_call Demo.TILE_SIZE (-1) 7 = Ok (-4, -1).
Proof.
  split; [|split; reflexivity].
  intros [_ H]. discriminate H. left. lia.
Qed.



(** ** The controller *)

Section Controller.
Variables TILE_SIZE M N K : Z.

Local Abbreviation total := (TOTAL_STEPS TILE_SIZE M N K).
Local Abbreviation handle' := (handle TILE_SIZE M N K).
Local Abbreviation run' := (run TILE_SIZE M N K).

Lemma handle_timer (e : event) (s : State) :
  timer (handle' e s) = isPlaying (handle' e s).
Proof. by destruct e. Qed.

Lemma handle_paused (e : event) (s : State) :
  e <> TogglePlay -> isPlaying s = false -> isPlaying (handle' e s) = false.
Proof.
  intros He Hs. destruct e; simpl; try done.
  unfold tick. by destruct (timer s).
Qed.

Lemma tick_idle (s : State) :
  isPlaying s = false -> timer s = false -> handle' Tick s = s.
Proof. destruct s as [st p t]. simpl. by intros -> ->. Qed.

Lemma run_snoc (es : list event) (e : event) (s : State) :
  run' (es ++ [e]) s = handle' e (run' es s).
Proof. unfold run. by rewrite foldl_app. Qed.

Lemma run_paused (es : list event) (s : State) :
  TogglePlay ∉ es -> isPlaying s = false -> timer s = false ->
  isPlaying (run' es s) = false /\ timer (run' es s) = false.
Proof.
  induction es as [|e es IH] using rev_ind; intros Hes Hp Ht; [done|].
  rewrite run_snoc. apply not_elem_of_app in Hes as [Hes He].
  destruct (IH Hes Hp Ht) as [IHp IHt].
  assert (isPlaying (handle' e (run' es s)) = false) as Hp'.
  { apply handle_paused; [|done]. intros ->. apply He. by left. }
  split; [done|]. by rewrite handle_timer.
Qed.
End Controller.

(** The slider handler of the im2col visualizer clamps its argument. *)
Lemma handleSlider_clamps (value : Z) (s : Im2Col.State) :
  Im2Col.step (Im2Col.handleSlider value s) = clamp value 0 (Im2Col.TOTAL_STEPS - 1)
  /\ Im2Col.isPlaying (Im2Col.handleSlider value s) = false.
Proof. done. Qed.




(** C8. [nextStep] and [prevStep] wrap modulo the number of steps: from a
    step [s] of [0, TOTAL_STEPS) they move to [(s + 1) mod TOTAL_STEPS] and
    to [(s - 1 + TOTAL_STEPS) mod TOTAL_STEPS]; with 12 steps, next from 11
    is 0 and previous from 0 is 11. *)
Theorem next_prev_wrap (TILE_SIZE M N K : Z) (s : State) :
  0 <= step s < TOTAL_STEPS TILE_SIZE M N K ->
  step (handle TILE_SIZE M N K Next s) = (step s + 1) mod TOTAL_STEPS TILE_SIZE M N K
  /\ step (handle TILE_SIZE M N K Prev s)
     = (step s - 1 + TOTAL_STEPS TILE_SIZE M N K) mod TOTAL_STEPS TILE_SIZE M N K
  /\ (TOTAL_STEPS TILE_SIZE M N K = 12 -> step s = 11 ->
      step (handle TILE_SIZE M N K Next s) = 0)
  /\ (TOTAL_STEPS TILE_SIZE M N K = 12 -> step s = 0 ->
      step (handle TILE_SIZE M N K Prev s) = 11).
Proof.
  intros Hs. simpl.
  split; [|split; [|split]].
  - apply Z.rem_mod_nonneg; lia.
  - apply Z.rem_mod_nonneg; lia.
  - by intros -> ->.
  - by intros -> ->.
Qed.

Lemma next_prev_wrap_witness :
  step (Demo.handle Next (mkState 11 false false)) = 0
  /\ step (Demo.handle Prev (mkState 0 false false)) = 11.
Proof.
  split.
  - destruct (next_prev_wrap 4 7 6 9 (mkState 11 false false)) as (_ & _ & H & _);
      [by vm_compute|].
    by apply H.
  - destruct (next_prev_wrap 4 7 6 9 (mkState 0 false false)) as (_ & _ & _ & H);
      [by vm_compute|].
    by apply H.
Defined.

(** C9. From a state whose autoplay flag is on (its interval installed, so
    that a timer tick advances the step), the slider handler turns the flag
    off, stores the sought value as the step and leaves no interval
    installed; from then on, as long as play is not toggled, the flag stays
    off, no interval is installed and a timer tick changes nothing: the step
    stays at the sought value however many ticks follow. *)
Theorem seek_cancels_autoplay (TILE_SIZE M N K : Z) (s : State) (v : Z) :
  isPlaying s = true -> timer s = true ->
  step (handle TILE_SIZE M N K Tick s)
  = Z.rem (step s + 1) (TOTAL_STEPS TILE_SIZE M N K)
  /\ isPlaying (handle TILE_SIZE M N K (Seek v) s) = false
  /\ timer (handle TILE_SIZE M N K (Seek v) s) = false
  /\ step (handle TILE_SIZE M N K (Seek v) s) = v
  /\ (forall es, TogglePlay ∉ es ->
        isPlaying (run TILE_SIZE M N K es (handle TILE_SIZE M N K (Seek v) s)) = false
        /\ timer (run TILE_SIZE M N K es (handle TILE_SIZE M N K (Seek v) s)) = false
        /\ handle TILE_SIZE M N K Tick
                  (run TILE_SIZE M N K es (handle TILE_SIZE M N K (Seek v) s))
           = run TILE_SIZE M N K es (handle TILE_SIZE M N K (Seek v) s))
  /\ (forall n, step (run TILE_SIZE M N K (replicate n Tick)
                          (handle TILE_SIZE M N K (Seek v) s)) = v).
Proof.
  intros Hplay Htimer.
  split; [simpl; unfold tick; by rewrite Htimer|].
  split; [done|]. split; [done|]. split; [done|]. split.
  - intros es Hes.
    destruct (run_paused TILE_SIZE M N K es (handle TILE_SIZE M N K (Seek v) s) Hes)
      as [Hp Ht]; [done..|].
    split; [done|]. split; [done|]. by apply tick_idle.
  - intros n. induction n as [|n IH]; [done|].
    replace (replicate (S n) Tick) with (replicate n Tick ++ [Tick])
      by (by rewrite <- replicate_cons_app).
    rewrite run_snoc, tick_idle; [done| |].
    + apply run_paused; [|done..].
      by intros [[=] _]%elem_of_replicate.
    + apply run_paused; [|done..].
      by intros [[=] _]%elem_of_replicate.
Qed.

Lemma seek_cancels_autoplay_witness :
  step (Demo.handle Tick (Demo.handle TogglePlay initial)) = 1
  /\ isPlaying (Demo.handle (Seek 5) (Demo.handle TogglePlay initial)) = false
  /\ step (Demo.run [Tick; Tick] (Demo.handle (Seek 5) (Demo.handle TogglePlay initial))) = 5.
Proof.
  destruct (seek_cancels_autoplay 4 7 6 9 (Demo.handle TogglePlay initial) 5)
    as (H0 & H1 & _ & _ & _ & H5); [reflexivity..|].
  split; [exact H0|]. split; [exact H1|exact (H5 2%nat)].
Defined.

(** ** Counting loops and arrays *)

Lemma for_loop_invariant {St : Type} (P : Z -> St -> Prop)
    (body : Z -> St -> option St) (n : nat) (lo : Z) (s : St) :
  P lo s ->
  (forall i t, lo <= i < lo + Z.of_nat n -> P i t ->
     exists t', body i t = Some t' /\ P (i + 1) t') ->
  exists s', for_loop n lo body s = Some s' /\ P (lo + Z.of_nat n) s'.
Proof.
  revert lo s. induction n as [|n IH]; intros lo s Hinit Hbody.
  - exists s. split; [done|]. by replace (lo + Z.of_nat 0) with lo by lia.
  - destruct (Hbody lo s ltac:(lia) Hinit) as (t & Ht & HP).
    destruct (IH (lo + 1) t HP) as (s' & Hs' & HP').
    { intros i u Hi. apply Hbody. lia. }
    exists s'. split.
    + simpl. by rewrite Ht.
    + by replace (lo + Z.of_nat (S n)) with (lo + 1 + Z.of_nat n) by lia.
Qed.

Lemma for_lt_invariant {St : Type} (P : Z -> St -> Prop)
    (body : Z -> St -> option St) (lo hi : Z) (s : St) :
  lo <= hi ->
  P lo s ->
  (forall i t, lo <= i < hi -> P i t -> exists t', body i t = Some t' /\ P (i + 1) t') ->
  exists s', for_lt lo hi body s = Some s' /\ P hi s'.
Proof.
  intros Hle Hinit Hbody. unfold for_lt.
  destruct (for_loop_invariant P body (Z.to_nat (hi - lo)) lo s Hinit) as (s' & Hs' & HP).
  - intros i t Hi. apply Hbody. lia.
  - exists s'. split; [done|]. by replace hi with (lo + Z.of_nat (Z.to_nat (hi - lo))) by lia.
Qed.

Lemma for_le_invariant {St : Type} (P : Z -> St -> Prop)
    (body : Z -> St -> option St) (lo hi : Z) (s : St) :
  lo <= hi + 1 ->
  P lo s ->
  (forall i t, lo <= i <= hi -> P i t -> exists t', body i t = Some t' /\ P (i + 1) t') ->
  exists s', for_le lo hi body s = Some s' /\ P (hi + 1) s'.
Proof.
  intros Hle Hinit Hbody. unfold for_le.
  destruct (for_loop_invariant P body (Z.to_nat (hi - lo + 1)) lo s Hinit)
    as (s' & Hs' & HP).
  - intros i t Hi. apply Hbody. lia.
  - exists s'. split; [done|].
    by replace (hi + 1) with (lo + Z.of_nat (Z.to_nat (hi - lo + 1))) by lia.
Qed.

Lemma array_get_Some {A : Type} (arr : list A) (i : Z) :
  0 <= i < Z.of_nat (length arr) -> exists x, array_get arr i = Some x.
Proof.
  intros Hi. unfold array_get. destruct (Z.ltb_spec i 0); [lia|].
  apply lookup_lt_is_Some_2. lia.
Qed.

Lemma array_set_inside {A : Type} (hole : A) (arr : list A) (i : Z) (x : A) :
  0 <= i < Z.of_nat (length arr) -> array_set hole arr i x = <[Z.to_nat i := x]> arr.
Proof.
  intros Hi. unfold array_set.
  destruct (Z.ltb_spec i 0); [lia|].
  by destruct (Z.ltb_spec i (Z.of_nat (length arr))); [|lia].
Qed.

Lemma array_get_set_eq {A : Type} (hole : A) (arr : list A) (i : Z) (x : A) :
  0 <= i < Z.of_nat (length arr) -> array_get (array_set hole arr i x) i = Some x.
Proof.
  intros Hi. unfold array_get, array_set.
  destruct (Z.ltb_spec i 0); [lia|].
  destruct (Z.ltb_spec i (Z.of_nat (length arr))); [|lia].
  apply list_lookup_insert_eq. lia.
Qed.

Lemma array_get_set_ne {A : Type} (hole : A) (arr : list A) (i j : Z) (x : A) :
  0 <= i < Z.of_nat (length arr) -> 0 <= j -> j <> i ->
  array_get (array_set hole arr i x) j = array_get arr j.
Proof.
  intros Hi Hj Hne. unfold array_get, array_set.
  destruct (Z.ltb_spec i 0); [lia|].
  destruct (Z.ltb_spec i (Z.of_nat (length arr))); [|lia].
  destruct (Z.ltb_spec j 0); [done|].
  apply list_lookup_insert_ne. lia.
Qed.

Lemma array_set_length {A : Type} (hole : A) (arr : list A) (i : Z) (x : A) :
  0 <= i < Z.of_nat (length arr) -> length (array_set hole arr i x) = length arr.
Proof.
  intros Hi. unfold array_set.
  destruct (Z.ltb_spec i 0); [lia|].
  destruct (Z.ltb_spec i (Z.of_nat (length arr))); [|lia].
  apply length_insert.
Qed.

Lemma has_shape_row {A : Type} (rows cols : Z) (m : list (list A)) (r : Z) :
  has_shape rows cols m -> 0 <= r < rows ->
  exists row, array_get m r = Some row /\ Z.of_nat (length row) = cols.
Proof.
  intros [Hlen Hrows] Hr.
  destruct (array_get_Some m r ltac:(lia)) as [row Hrow].
  exists row. split; [done|].
  unfold array_get in Hrow. destruct (Z.ltb_spec r 0); [lia|].
  by apply (Forall_lookup_1 _ _ _ _ Hrows Hrow).
Qed.

Lemma read2_entry (rows cols : Z) (m : list (list Z)) (r n : Z) :
  has_shape rows cols m -> 0 <= r < rows -> 0 <= n < cols ->
  read2 m r n = Some (Int (entry m r n)).
Proof.
  intros Hm Hr Hn.
  destruct (has_shape_row rows cols m r Hm Hr) as (row & Hrow & Hlen).
  destruct (array_get_Some row n ltac:(lia)) as [z Hz].
  unfold read2, entry. rewrite Hrow. simpl. by rewrite Hz.
Qed.

Lemma write2_spec (rows cols : Z) (out : list (list cell_value)) (r c : Z) (v : number) :
  has_shape rows cols out -> 0 <= r < rows -> 0 <= c < cols ->
  exists out',
    write2 out r c v = Some out'
    /\ has_shape rows cols out'
    /\ cell out' r c = Some v
    /\ forall r' c', 0 <= r' -> 0 <= c' -> (r' <> r \/ c' <> c) ->
         cell out' r' c' = cell out r' c'.
Proof.
  intros Hout Hr Hc.
  destruct (has_shape_row rows cols out r Hout Hr) as (row & Hrow & Hlen).
  destruct Hout as [Hrows Hall].
  assert (array_get (array_set None row c (Some v)) c = Some (Some v)) as Hnew
    by (apply array_get_set_eq; lia).
  assert (forall c', 0 <= c' -> c' <> c ->
            array_get (array_set None row c (Some v)) c' = array_get row c') as Hold
    by (intros; apply array_get_set_ne; lia).
  assert (length (array_set None row c (Some v)) = length row) as Hlen'
    by (apply array_set_length; lia).
  unfold write2. rewrite Hrow. simpl.
  remember (array_set None row c (Some v)) as row' eqn:Hrow'.
  eexists. split; [done|].
  split; [|split].
  - split.
    + rewrite array_set_length by lia. done.
    + rewrite (array_set_inside _ out) by lia.
      apply Forall_insert; [done|]. lia.
  - unfold cell. rewrite array_get_set_eq by lia. simpl. by rewrite Hnew.
  - intros r' c' Hr' Hc' Hne. unfold cell.
    destruct (decide (r' = r)) as [->|Hrr].
    + rewrite array_get_set_eq by lia. rewrite Hrow. simpl.
      rewrite Hold by lia. done.
    + rewrite array_get_set_ne by lia. done.
Qed.

(** ** The loop invariant of the materializer *)

Section Filled.
Variables M K : Z.
Variable want : Z -> Z -> cell_value.

Lemma filled_iff (reg reg' : Z -> Z -> Prop) (out : list (list cell_value)) :
  (forall r c, 0 <= r < M -> 0 <= c < K -> reg r c <-> reg' r c) ->
  filled M K want reg out -> filled M K want reg' out.
Proof.
  intros Heq [Hshape Hcells]. split; [done|].
  intros r c Hr Hc. destruct (Hcells r c Hr Hc) as [Hin Hout].
  pose proof (Heq r c Hr Hc) as Hrc. split; [tauto|]. destruct Hout; tauto.
Qed.

Lemma filled_init :
  0 <= M -> 0 <= K ->
  filled M K want (fun _ _ => False)
         (replicate (Z.to_nat M) (replicate (Z.to_nat K) None)).
Proof.
  intros HM HK. split.
  - split.
    + rewrite length_replicate. lia.
    + apply Forall_replicate. rewrite length_replicate. lia.
  - intros r c Hr Hc. split; [done|]. left.
    unfold cell, array_get.
    destruct (Z.ltb_spec r 0); [lia|]. destruct (Z.ltb_spec c 0); [lia|].
    rewrite lookup_replicate_2 by lia. simpl.
    rewrite lookup_replicate_2 by lia. done.
Qed.

Lemma filled_write (reg : Z -> Z -> Prop) (out : list (list cell_value))
    (r c : Z) (v : number) :
  filled M K want reg out -> 0 <= r < M -> 0 <= c < K -> want r c = Some v ->
  exists out',
    write2 out r c v = Some out'
    /\ filled M K want (fun r' c' => reg r' c' \/ (r' = r /\ c' = c)) out'.
Proof.
  intros [Hshape Hcells] Hr Hc Hv.
  destruct (write2_spec M K out r c v Hshape Hr Hc) as (out' & Hw & Hshape' & Hnew & Hold).
  exists out'. split; [done|]. split; [done|].
  intros r' c' Hr' Hc'.
  destruct (decide (r' = r /\ c' = c)) as [[-> ->]|Hne].
  - rewrite Hnew, Hv. split; [done|]. right. by right.
  - rewrite Hold by lia. destruct (Hcells r' c' Hr' Hc') as [Hin Hout].
    split.
    + intros [?|?]; [auto|tauto].
    + destruct Hout; [by left|right; by left].
Qed.

Lemma filled_skip (reg new : Z -> Z -> Prop) (out : list (list cell_value)) :
  filled M K want reg out ->
  (forall r c, 0 <= r < M -> 0 <= c < K -> new r c -> want r c = None) ->
  filled M K want (fun r c => reg r c \/ new r c) out.
Proof.
  intros [Hshape Hcells] Hnew. split; [done|].
  intros r c Hr Hc. destruct (Hcells r c Hr Hc) as [Hin Hout].
  split.
  - intros [?|Hn]; [auto|]. rewrite (Hnew r c Hr Hc Hn).
    destruct Hout as [?|?]; [done|]. rewrite <- (Hnew r c Hr Hc Hn). auto.
  - destruct Hout; [by left|right; by left].
Qed.

Lemma filled_all (out : list (list cell_value)) :
  filled M K want (fun _ _ => True) out ->
  out = (fun r => (fun c => want r c) <$> seqZ 0 K) <$> seqZ 0 M.
Proof.
  intros [[Hrows Hall] Hcells].
  apply list_eq. intros i.
  rewrite list_lookup_fmap.
  destruct (decide (Z.of_nat i < M)) as [Hi|Hi].
  - rewrite lookup_seqZ_lt by done. simpl.
    destruct (lookup_lt_is_Some_2 out i ltac:(lia)) as [row Hrow].
    rewrite Hrow. f_equal.
    pose proof (Forall_lookup_1 _ _ _ _ Hall Hrow) as Hlen. simpl in Hlen.
    apply list_eq. intros j. rewrite list_lookup_fmap.
    destruct (decide (Z.of_nat j < K)) as [Hj|Hj].
    + rewrite lookup_seqZ_lt by done. simpl.
      destruct (Hcells (Z.of_nat i) (Z.of_nat j) ltac:(lia) ltac:(lia)) as [Hin _].
      specialize (Hin I). unfold cell, array_get in Hin.
      destruct (Z.ltb_spec (Z.of_nat i) 0); [lia|].
      destruct (Z.ltb_spec (Z.of_nat j) 0); [lia|].
      rewrite !Nat2Z.id in Hin. rewrite Hrow in Hin. simpl in Hin.
      destruct (lookup_lt_is_Some_2 row j ltac:(lia)) as [x Hx].
      rewrite Hx in Hin |- *. simpl in Hin. rewrite Z.add_0_l. by f_equal.
    + rewrite lookup_seqZ_ge by lia. simpl. apply lookup_ge_None_2. lia.
  - rewrite lookup_seqZ_ge by lia. simpl. apply lookup_ge_None_2. lia.
Qed.
End Filled.

(** ** The materializer *)

Section Materializer.
Variables TILE_SIZE M N K : Z.
Variables A B : list (list Z).
Variable step : Z.
Hypothesis tile_pos : 0 < TILE_SIZE.
Hypothesis M_pos : 0 < M.
Hypothesis N_pos : 0 < N.
Hypothesis K_pos : 0 < K.
Hypothesis shapeA : has_shape M N A.
Hypothesis shapeB : has_shape N K B.

Local Abbreviation count := (tileContributionCount TILE_SIZE N K step).
Local Abbreviation want := (expected_cell TILE_SIZE N K A B step).
Local Abbreviation tileRange := (getTileRange TILE_SIZE).

Lemma dot_prefix_succ (r c n : Z) :
  0 <= n ->
  dot_prefix A B r c (Z.to_nat (n + 1))
  = dot_prefix A B r c (Z.to_nat n) + entry A r n * entry B n c.
Proof.
  intros Hn. replace (Z.to_nat (n + 1)) with (S (Z.to_nat n)) by lia.
  unfold dot_prefix. simpl. by rewrite Z2Nat.id by done.
Qed.

Lemma count_le (rt ct : Z) : count rt ct <= INNER_TILES TILE_SIZE N.
Proof.
  pose proof (INNER_TILES_pos TILE_SIZE N tile_pos N_pos).
  unfold tileContributionCount.
  destruct (Z.leb_spec (step - (rt * COL_TILES TILE_SIZE K + ct) * INNER_TILES TILE_SIZE N + 1) 0);
    lia.
Qed.

Lemma want_in_tile (rt ct r c : Z) :
  rt * TILE_SIZE <= r < rt * TILE_SIZE + TILE_SIZE ->
  ct * TILE_SIZE <= c < ct * TILE_SIZE + TILE_SIZE ->
  want r c
  = if count rt ct <=? 0 then None
    else Some (Int (dot_prefix A B r c
                      (Z.to_nat (Z.min (count rt ct * TILE_SIZE) N)))).
Proof.
  intros Hr Hc. unfold expected_cell.
  by rewrite (tile_of_index TILE_SIZE rt r), (tile_of_index TILE_SIZE ct c).
Qed.

(** One inner tile: the loop over [n]. *)
Lemma inner_tile_sum (r c innerTile : Z) :
  0 <= r < M -> 0 <= c < K -> 0 <= innerTile -> innerTile * TILE_SIZE < N ->
  for_le (tileRange innerTile N).1 (tileRange innerTile N).2
    (fun n sum =>
       a ← read2 A r n; b ← read2 B n c; Some (js_add sum (js_mul a b)))
    (Int (dot_prefix A B r c (Z.to_nat (innerTile * TILE_SIZE))))
  = Some (Int (dot_prefix A B r c (Z.to_nat (Z.min (innerTile * TILE_SIZE + TILE_SIZE) N)))).
Proof.
  intros Hr Hc Hit Hlt. unfold getTileRange. cbn [fst snd].
  set (lo := innerTile * TILE_SIZE) in *.
  assert (0 <= lo) as Hlo by (subst lo; nia).
  destruct (for_le_invariant
              (fun n acc => acc = Int (dot_prefix A B r c (Z.to_nat n)))
              (fun n sum =>
                 a ← read2 A r n; b ← read2 B n c; Some (js_add sum (js_mul a b)))
              lo (Z.min (lo + TILE_SIZE - 1) (N - 1))
              (Int (dot_prefix A B r c (Z.to_nat lo))))
    as (acc & Hacc & ->); [lia|done| |].
  - intros n acc Hn ->.
    rewrite (read2_entry M N A r n), (read2_entry N K B n c) by (done || lia).
    eexists. split; [done|]. simpl. by rewrite dot_prefix_succ by lia.
  - rewrite Hacc. do 3 f_equal. lia.
Qed.

(** The accumulation of [contributions] inner tiles. *)
Lemma contribution_sum (r c contributions : Z) :
  0 <= r < M -> 0 <= c < K ->
  0 <= contributions <= INNER_TILES TILE_SIZE N ->
  for_lt 0 contributions
    (fun innerTile sum =>
       for_le (tileRange innerTile N).1 (tileRange innerTile N).2
         (fun n sum =>
            a ← read2 A r n; b ← read2 B n c; Some (js_add sum (js_mul a b)))
         sum)
    (Int 0)
  = Some (Int (dot_prefix A B r c (Z.to_nat (Z.min (contributions * TILE_SIZE) N)))).
Proof.
  intros Hr Hc Hk.
  pose proof (ceil_div_bounds N TILE_SIZE tile_pos) as HI.
  fold (INNER_TILES TILE_SIZE N) in HI.
  destruct (for_lt_invariant
              (fun it acc =>
                 acc = Int (dot_prefix A B r c (Z.to_nat (Z.min (it * TILE_SIZE) N))))
              (fun innerTile sum =>
                 for_le (tileRange innerTile N).1 (tileRange innerTile N).2
                   (fun n sum =>
                      a ← read2 A r n; b ← read2 B n c; Some (js_add sum (js_mul a b)))
                   sum)
              0 contributions (Int 0))
    as (acc & Hacc & ->); [lia| | |done].
  { by replace (Z.min (0 * TILE_SIZE) N) with 0 by lia. }
  intros it acc Hit ->.
  assert (it * TILE_SIZE < N) as Hlt by nia.
  replace (Z.min (it * TILE_SIZE) N) with (it * TILE_SIZE) by lia.
  eexists. split; [by apply inner_tile_sum; try lia|].
  do 3 f_equal. lia.
Qed.

(** The body of the loop over [c]: accumulate, then store. *)
Local Abbreviation store_cell contributions r :=
  (fun c out =>
     sum ← for_lt 0 contributions
             (fun innerTile sum =>
                for_le (tileRange innerTile N).1 (tileRange innerTile N).2
                  (fun n sum =>
                     a ← read2 A r n; b ← read2 B n c; Some (js_add sum (js_mul a b)))
                  sum)
             (Int 0);
     write2 out r c sum).

Lemma count_pos_want (rt ct r c : Z) :
  0 < count rt ct ->
  rt * TILE_SIZE <= r < rt * TILE_SIZE + TILE_SIZE ->
  ct * TILE_SIZE <= c < ct * TILE_SIZE + TILE_SIZE ->
  want r c
  = Some (Int (dot_prefix A B r c (Z.to_nat (Z.min (count rt ct * TILE_SIZE) N)))).
Proof.
  intros Hk Hr Hc. rewrite (want_in_tile rt ct) by done.
  by destruct (Z.leb_spec (count rt ct) 0); [lia|].
Qed.

(** The loop over [c]: one row of an output tile. *)
Lemma fill_cols (reg : Z -> Z -> Prop) (out : list (list cell_value)) (rt ct r : Z) :
  filled M K want reg out ->
  0 <= ct -> ct * TILE_SIZE < K ->
  0 <= r < M -> rt * TILE_SIZE <= r < rt * TILE_SIZE + TILE_SIZE ->
  0 < count rt ct ->
  exists out',
    for_le (tileRange ct K).1 (tileRange ct K).2 (store_cell (count rt ct) r) out
    = Some out'
    /\ filled M K want
         (fun r' c' => reg r' c'
                       \/ (r' = r /\ ct * TILE_SIZE <= c' < ct * TILE_SIZE + TILE_SIZE))
         out'.
Proof.
  intros Hfill Hct HctK Hr Hrt Hk. unfold getTileRange. cbn [fst snd].
  set (lo := ct * TILE_SIZE) in *.
  assert (0 <= lo) as Hlo by (subst lo; nia).
  destruct (for_le_invariant
              (fun c o =>
                 filled M K want
                   (fun r' c' => reg r' c' \/ (r' = r /\ lo <= c' < c)) o)
              (store_cell (count rt ct) r)
              lo (Z.min (lo + TILE_SIZE - 1) (K - 1)) out)
    as (out' & Hout' & Hfill'); [lia| | |].
  - revert Hfill. apply filled_iff. intuition lia.
  - intros c o Hc Ho.
    pose proof (count_le rt ct) as Hle.
    rewrite contribution_sum by lia. simpl.
    destruct (filled_write M K want _ o r c _ Ho Hr ltac:(lia)
                (count_pos_want rt ct r c Hk Hrt ltac:(lia)))
      as (o' & Hw & Ho').
    exists o'. split; [done|].
    revert Ho'. apply filled_iff. intuition lia.
  - exists out'. split; [done|].
    revert Hfill'. apply filled_iff. intuition lia.
Qed.

(** The loop over [r]: one output tile. *)
Lemma fill_tile (reg : Z -> Z -> Prop) (out : list (list cell_value)) (rt ct : Z) :
  filled M K want reg out ->
  0 <= rt -> rt * TILE_SIZE < M ->
  0 <= ct -> ct * TILE_SIZE < K ->
  0 < count rt ct ->
  exists out',
    for_le (tileRange rt M).1 (tileRange rt M).2
      (fun r out =>
         for_le (tileRange ct K).1 (tileRange ct K).2 (store_cell (count rt ct) r) out)
      out
    = Some out'
    /\ filled M K want
         (fun r' c' => reg r' c'
                       \/ (rt * TILE_SIZE <= r' < rt * TILE_SIZE + TILE_SIZE
                           /\ ct * TILE_SIZE <= c' < ct * TILE_SIZE + TILE_SIZE))
         out'.
Proof.
  intros Hfill Hrt HrtM Hct HctK Hk.
  assert (0 <= rt * TILE_SIZE) as Hlo by nia.
  destruct (for_le_invariant
              (fun r o =>
                 filled M K want
                   (fun r' c' =>
                      reg r' c'
                      \/ (rt * TILE_SIZE <= r' < r
                          /\ ct * TILE_SIZE <= c' < ct * TILE_SIZE + TILE_SIZE)) o)
              (fun r out =>
                 for_le (tileRange ct K).1 (tileRange ct K).2
                   (store_cell (count rt ct) r) out)
              (tileRange rt M).1 (tileRange rt M).2 out)
    as (out' & Hout' & Hfill'); unfold getTileRange in *; cbn [fst snd] in *; [lia| | |].
  - revert Hfill. apply filled_iff. intuition lia.
  - intros r o Hr Ho.
    destruct (fill_cols _ o rt ct r Ho Hct HctK ltac:(lia) ltac:(lia) Hk)
      as (o' & Hw & Ho').
    unfold getTileRange in Hw. cbn [fst snd] in Hw.
    exists o'. split; [done|].
    revert Ho'. apply filled_iff. intuition lia.
  - exists out'. split; [done|].
    revert Hfill'. apply filled_iff. intuition lia.
Qed.

(** The body of the loop over the column tiles. *)
Local Abbreviation visit_tile rowTile :=
  (fun colTile out =>
     if count rowTile colTile <=? 0 then Some out
     else
       for_le (tileRange rowTile M).1 (tileRange rowTile M).2
         (fun r out =>
            for_le (tileRange colTile K).1 (tileRange colTile K).2
              (store_cell (count rowTile colTile) r) out)
         out).

Lemma tile_start_lt (extent t : Z) :
  0 <= t < ceil_div extent TILE_SIZE -> t * TILE_SIZE < extent.
Proof.
  intros Ht. pose proof (ceil_div_bounds extent TILE_SIZE tile_pos). nia.
Qed.

(** The loop over the column tiles: one row of output tiles. *)
Lemma fill_tile_row (reg : Z -> Z -> Prop) (out : list (list cell_value)) (rt : Z) :
  filled M K want reg out ->
  0 <= rt -> rt * TILE_SIZE < M ->
  exists out',
    for_lt 0 (COL_TILES TILE_SIZE K) (visit_tile rt) out = Some out'
    /\ filled M K want
         (fun r' c' => reg r' c'
                       \/ rt * TILE_SIZE <= r' < rt * TILE_SIZE + TILE_SIZE)
         out'.
Proof.
  intros Hfill Hrt HrtM.
  pose proof (COL_TILES_pos TILE_SIZE K tile_pos K_pos) as HC.
  pose proof (ceil_div_bounds K TILE_SIZE tile_pos) as HCb.
  fold (COL_TILES TILE_SIZE K) in HCb.
  destruct (for_lt_invariant
              (fun ct o =>
                 filled M K want
                   (fun r' c' =>
                      reg r' c'
                      \/ (rt * TILE_SIZE <= r' < rt * TILE_SIZE + TILE_SIZE
                          /\ c' < ct * TILE_SIZE)) o)
              (visit_tile rt) 0 (COL_TILES TILE_SIZE K) out)
    as (out' & Hout' & Hfill'); [lia| | |].
  - revert Hfill. apply filled_iff. intuition lia.
  - intros ct o Hct Ho.
    assert (ct * TILE_SIZE < K) as HctK by (by apply tile_start_lt).
    destruct (count rt ct <=? 0) eqn:Hk.
    + exists o. split; [done|].
      apply (filled_skip M K want _
               (fun r' c' =>
                  rt * TILE_SIZE <= r' < rt * TILE_SIZE + TILE_SIZE
                  /\ ct * TILE_SIZE <= c' < ct * TILE_SIZE + TILE_SIZE)) in Ho.
      * revert Ho. apply filled_iff. intuition lia.
      * intros r c _ _ [Hr Hc]. rewrite (want_in_tile rt ct) by done. by rewrite Hk.
    + apply Z.leb_gt in Hk.
      destruct (fill_tile _ o rt ct Ho Hrt HrtM ltac:(lia) HctK Hk) as (o' & Hw & Ho').
      exists o'. split; [done|].
      revert Ho'. apply filled_iff. intuition lia.
  - exists out'. split; [done|].
    revert Hfill'. apply filled_iff. intuition lia.
Qed.

(** The materializer at any step: the call returns, and the matrix it
    returns holds the expected cell everywhere. *)
Lemma buildPartialC_cells :
  buildPartialC TILE_SIZE M N K A B step
  = Some ((fun r => (fun c => want r c) <$> seqZ 0 K) <$> seqZ 0 M).
Proof.
  pose proof (ceil_div_bounds M TILE_SIZE tile_pos) as HRb.
  fold (ROW_TILES TILE_SIZE M) in HRb.
  pose proof (ROW_TILES_pos TILE_SIZE M tile_pos M_pos) as HR.
  unfold buildPartialC. cbv zeta.
  destruct (for_lt_invariant
              (fun rt o => filled M K want (fun r' c' => r' < rt * TILE_SIZE) o)
              (fun rowTile out => for_lt 0 (COL_TILES TILE_SIZE K) (visit_tile rowTile) out)
              0 (ROW_TILES TILE_SIZE M)
              (replicate (Z.to_nat M) (replicate (Z.to_nat K) None)))
    as (out' & Hout' & Hfill'); [lia| | |].
  - pose proof (filled_init M K want ltac:(lia) ltac:(lia)) as Hinit.
    revert Hinit. apply filled_iff. intuition lia.
  - intros rt o Hrt Ho.
    destruct (fill_tile_row _ o rt Ho ltac:(lia) (tile_start_lt M rt Hrt))
      as (o' & Hw & Ho').
    exists o'. split; [done|].
    revert Ho'. apply filled_iff. intuition lia.
  - rewrite Hout'. f_equal. apply (filled_all M K want).
    revert Hfill'. apply filled_iff. intuition lia.
Qed.
End Materializer.


Lemma tile_index_bounds (TILE_SIZE extent x : Z) :
  0 < TILE_SIZE -> 0 <= x < extent -> 0 <= x / TILE_SIZE < ceil_div extent TILE_SIZE.
Proof.
  intros HT Hx. pose proof (ceil_div_bounds extent TILE_SIZE HT).
  split; [apply Z.div_pos; lia|].
  apply Z.div_lt_upper_bound; [done|]. lia.
Qed.









(** * Further properties of the tiled simulator *)

Lemma cell_tabulate (rows cols : Z) (f : Z -> Z -> cell_value) (r c : Z) :
  0 <= r < rows -> 0 <= c < cols ->
  cell ((fun r => (fun c => f r c) <$> seqZ 0 cols) <$> seqZ 0 rows) r c = f r c.
Proof.
  intros Hr Hc. unfold cell, array_get.
  destruct (Z.ltb_spec r 0); [lia|]. destruct (Z.ltb_spec c 0); [lia|].
  rewrite list_lookup_fmap, lookup_seqZ_lt by lia. simpl.
  rewrite list_lookup_fmap, lookup_seqZ_lt by lia. simpl.
  rewrite !Z.add_0_l, !Z2Nat.id by lia. by destruct (f r c).
Qed.

Lemma has_shape_tabulate {A : Type} (rows cols : Z) (f : Z -> Z -> A) :
  0 <= rows -> 0 <= cols ->
  has_shape rows cols ((fun r => (fun c => f r c) <$> seqZ 0 cols) <$> seqZ 0 rows).
Proof.
  intros Hr Hc. split.
  - rewrite length_fmap, length_seqZ. lia.
  - apply Forall_fmap, list.Forall_forall. intros r _. simpl.
    rewrite length_fmap, length_seqZ. lia.
Qed.







Lemma count_mono (TILE_SIZE N K s s' rt ct : Z) :
  0 < TILE_SIZE -> 0 < N -> s <= s' ->
  tileContributionCount TILE_SIZE N K s rt ct
  <= tileContributionCount TILE_SIZE N K s' rt ct.
Proof.
  intros HT HN Hs. pose proof (INNER_TILES_pos TILE_SIZE N HT HN).
  unfold tileContributionCount.
  set (base := (rt * COL_TILES TILE_SIZE K + ct) * INNER_TILES TILE_SIZE N).
  destruct (Z.leb_spec (s - base + 1) 0), (Z.leb_spec (s' - base + 1) 0); lia.
Qed.

(** X3. Materialization only moves forward.  Between a step and a later
    one, a cell that shows a number keeps showing a number, and a cell whose
    tile is fully accumulated keeps its value. *)
Theorem buildPartialC_monotone (TILE_SIZE M N K : Z) (A B : list (list Z)) (s s' : Z) :
  0 < TILE_SIZE -> 0 < M -> 0 < N -> 0 < K ->
  has_shape M N A -> has_shape N K B ->
  s <= s' ->
  exists out out',
    buildPartialC TILE_SIZE M N K A B s = Some out
    /\ buildPartialC TILE_SIZE M N K A B s' = Some out'
    /\ forall r c, 0 <= r < M -> 0 <= c < K ->
         (is_Some (cell out r c) -> is_Some (cell out' r c))
         /\ (tileContributionCount TILE_SIZE N K s (r / TILE_SIZE) (c / TILE_SIZE)
             = INNER_TILES TILE_SIZE N ->
             cell out' r c = cell out r c).
Proof.
  intros HT HM HN HK HA HB Hs.
  do 2 eexists. split; [by apply buildPartialC_cells|].
  split; [by apply buildPartialC_cells|].
  intros r c Hr Hc. rewrite !cell_tabulate by lia. unfold expected_cell.
  pose proof (count_mono TILE_SIZE N K s s' (r / TILE_SIZE) (c / TILE_SIZE) HT HN Hs) as Hm.
  pose proof (count_le TILE_SIZE N K s' HT HN (r / TILE_SIZE) (c / TILE_SIZE)) as Hle.
  pose proof (INNER_TILES_pos TILE_SIZE N HT HN) as HI.
  set (k := tileContributionCount TILE_SIZE N K s (r / TILE_SIZE) (c / TILE_SIZE)) in *.
  set (k' := tileContributionCount TILE_SIZE N K s' (r / TILE_SIZE) (c / TILE_SIZE)) in *.
  split.
  - destruct (Z.leb_spec k 0); [by intros [? [=]]|].
    destruct (Z.leb_spec k' 0); [lia|]. by eexists.
  - intros Hk. replace k' with k by lia. done.
Qed.

Lemma buildPartialC_monotone_witness :
  exists out out',
    Demo.buildPartialC Demo.matrixA Demo.matrixB 1 = Some out
    /\ Demo.buildPartialC Demo.matrixA Demo.matrixB 7 = Some out'
    /\ (is_Some (cell out 0 0) -> is_Some (cell out' 0 0))
    /\ cell out' 0 0 = cell out 0 0.
Proof.
  destruct (buildPartialC_monotone 4 7 6 9 Demo.matrixA Demo.matrixB 1 7)
    as (out & out' & H1 & H2 & H3); try lia.
  - split; [reflexivity|]. repeat constructor.
  - split; [reflexivity|]. repeat constructor.
  - exists out, out'. split; [exact H1|]. split; [exact H2|].
    destruct (H3 0 0) as [Ha Hb]; try lia.
    split; [exact Ha|]. apply Hb. reflexivity.
Defined.

Lemma decoded_tile_count (TILE_SIZE M N K s rt ct it : Z) :
  0 < TILE_SIZE -> 0 < M -> 0 < N -> 0 < K ->
  0 <= s < TOTAL_STEPS TILE_SIZE M N K ->
  decodeStep TILE_SIZE N K s = (rt, ct, it) ->
  tileContributionCount TILE_SIZE N K s rt ct = it + 1
  /\ 0 < it + 1 <= INNER_TILES TILE_SIZE N
  /\ forall rt' ct',
       (rt' * COL_TILES TILE_SIZE K + ct' < rt * COL_TILES TILE_SIZE K + ct ->
        tileContributionCount TILE_SIZE N K s rt' ct' = INNER_TILES TILE_SIZE N)
       /\ (rt * COL_TILES TILE_SIZE K + ct < rt' * COL_TILES TILE_SIZE K + ct' ->
           tileContributionCount TILE_SIZE N K s rt' ct' = 0).
Proof.
  intros HT HM HN HK Hs Hdec.
  pose proof (COL_TILES_pos TILE_SIZE K HT HK) as HC.
  pose proof (INNER_TILES_pos TILE_SIZE N HT HN) as HI.
  pose proof (decode_in _ _ HC HI (ROW_TILES TILE_SIZE M) s Hs) as Hin.
  pose proof (encode_decode _ _ HC HI s ltac:(lia)) as Henc.
  unfold decodeStep in Hdec. rewrite Hdec in Hin, Henc.
  unfold triple_in in Hin. unfold encodeStep in Henc.
  unfold tileContributionCount.
  set (C := COL_TILES TILE_SIZE K) in *. set (I := INNER_TILES TILE_SIZE N) in *.
  split; [|split; [lia|]].
  - destruct (Z.leb_spec (s - (rt * C + ct) * I + 1) 0); lia.
  - intros rt' ct'. split; intros Hlt.
    + assert ((rt' * C + ct' + 1) * I <= (rt * C + ct) * I)
        by (apply Z.mul_le_mono_nonneg_r; lia).
      destruct (Z.leb_spec (s - (rt' * C + ct') * I + 1) 0); lia.
    + assert ((rt * C + ct + 1) * I <= (rt' * C + ct') * I)
        by (apply Z.mul_le_mono_nonneg_r; lia).
      destruct (Z.leb_spec (s - (rt' * C + ct') * I + 1) 0); lia.
Qed.


(** X4. The tile being updated.  At a step of [0, TOTAL_STEPS) that decodes
    to (row tile, column tile, inner tile), the output tile (row tile,
    column tile) has [inner tile + 1] contributions; every tile before it in
    row-major order is fully accumulated and every tile after it has
    none. *)
Theorem active_tile_progress (TILE_SIZE M N K s rt ct it : Z) :
  0 < TILE_SIZE -> 0 < M -> 0 < N -> 0 < K ->
  0 <= s < TOTAL_STEPS TILE_SIZE M N K ->
  decodeStep TILE_SIZE N K s = (rt, ct, it) ->
  tileContributionCount TILE_SIZE N K s rt ct = it + 1
  /\ 0 < it + 1 <= INNER_TILES TILE_SIZE N
  /\ forall rt' ct',
       (rt' * COL_TILES TILE_SIZE K + ct' < rt * COL_TILES TILE_SIZE K + ct ->
        tileContributionCount TILE_SIZE N K s rt' ct' = INNER_TILES TILE_SIZE N)
       /\ (rt * COL_TILES TILE_SIZE K + ct < rt' * COL_TILES TILE_SIZE K + ct' ->
           tileContributionCount TILE_SIZE N K s rt' ct' = 0).
Proof. apply decoded_tile_count. Qed.

Lemma active_tile_progress_witness :
  Demo.tileContributionCount 7 1 0 = 1 + 1
  /\ Demo.tileContributionCount 7 0 2 = 2
  /\ Demo.tileContributionCount 7 1 1 = 0.
Proof.
  destruct (active_tile_progress 4 7 6 9 7 1 0 1) as (H1 & _ & H3);
    try lia; try reflexivity.
  { change (TOTAL_STEPS 4 7 6 9) with 12. lia. }
  split; [exact H1|]. split.
  - apply (H3 0 2). change (COL_TILES 4 9) with 3. lia.
  - apply (H3 1 1). change (COL_TILES 4 9) with 3. lia.
Defined.

Lemma sum_list_snoc (l : list Z) (x : Z) : sum_list (l ++ [x]) = sum_list l + x.
Proof.
  unfold sum_list. induction l as [|y l IH]; simpl; [lia|]. rewrite IH. lia.
Qed.

Lemma concat_fmap_bind {A B : Type} (f : A -> list B) (l : list A) :
  concat (f <$> l) = l ≫= f.
Proof.
  induction l as [|x l IH]; [done|].
  rewrite fmap_cons, bind_cons.
  change (concat (f x :: (f <$> l))) with (f x ++ concat (f <$> l)).
  by rewrite IH.
Qed.

Lemma sum_linear_counts (innerTiles s : Z) (n : nat) :
  0 < innerTiles ->
  sum_list ((fun t => if s - t * innerTiles + 1 <=? 0 then 0
                      else Z.min innerTiles (s - t * innerTiles + 1))
              <$> seqZ 0 (Z.of_nat n))
  = Z.max 0 (Z.min (Z.of_nat n * innerTiles) (s + 1)).
Proof.
  intros HI. induction n as [|n IH].
  - simpl. lia.
  - rewrite seqZ_S, fmap_snoc, sum_list_snoc, IH.
    rewrite Z.add_0_l.
    destruct (Z.leb_spec (s - Z.of_nat n * innerTiles + 1) 0); lia.
Qed.

(** X5. Contributions are conserved.  At a step [s] of [0, TOTAL_STEPS) the
    entries of the progress map [cTileProgress] add up to [s + 1]: each step
    folds exactly one more contribution into the output. *)
Theorem cTileProgress_total (TILE_SIZE M N K s : Z) :
  0 < TILE_SIZE -> 0 < M -> 0 < N -> 0 < K ->
  0 <= s < TOTAL_STEPS TILE_SIZE M N K ->
  sum_list (concat (cTileProgress TILE_SIZE M N K s)) = s + 1.
Proof.
  intros HT HM HN HK Hs.
  pose proof (ROW_TILES_pos TILE_SIZE M HT HM) as HR.
  pose proof (COL_TILES_pos TILE_SIZE K HT HK) as HC.
  pose proof (INNER_TILES_pos TILE_SIZE N HT HN) as HI.
  unfold cTileProgress, tileContributionCount, TOTAL_STEPS in *.
  set (R := ROW_TILES TILE_SIZE M) in *. set (C := COL_TILES TILE_SIZE K) in *.
  set (I := INNER_TILES TILE_SIZE N) in *.
  rewrite concat_fmap_bind.
  pose proof (seqZ_blocks C (Z.to_nat R) ltac:(lia)) as Hb.
  rewrite Z2Nat.id in Hb by lia.
  pose proof (sum_linear_counts I s (Z.to_nat (R * C)) HI) as Hsum.
  rewrite Z2Nat.id in Hsum by nia.
  rewrite <- Hb in Hsum at 1. rewrite fmap_bind_list in Hsum.
  erewrite list_bind_ext in Hsum; [| |reflexivity].
  2: { intros r. rewrite <- list_fmap_compose. reflexivity. }
  unfold compose in Hsum. rewrite Hsum. lia.
Qed.

Lemma cTileProgress_total_witness :
  sum_list (concat (cTileProgress 4 7 6 9 7)) = 7 + 1.
Proof.
  apply (cTileProgress_total 4 7 6 9 7); try lia.
  change (TOTAL_STEPS 4 7 6 9) with 12. lia.
Defined.

(** X6. Every index lies in exactly one tile.  For a positive tile size, an
    index [x] of [0, extent) lies in the range of tile [x / TILE_SIZE], that
    tile exists, and no other tile's range contains [x]. *)
Theorem getTileRange_partition (TILE_SIZE extent x : Z) :
  0 < TILE_SIZE -> 0 <= x < extent ->
  0 <= x / TILE_SIZE < ceil_div extent TILE_SIZE
  /\ (getTileRange TILE_SIZE (x / TILE_SIZE) extent).1 <= x
  /\ x <= (getTileRange TILE_SIZE (x / TILE_SIZE) extent).2
  /\ forall t, (getTileRange TILE_SIZE t extent).1 <= x
               /\ x <= (getTileRange TILE_SIZE t extent).2 ->
               t = x / TILE_SIZE.
Proof.
  intros HT Hx. split; [by apply tile_index_bounds|].
  pose proof (Z.div_mod x TILE_SIZE ltac:(lia)) as Hdm.
  pose proof (Z.mod_pos_bound x TILE_SIZE HT) as Hm.
  unfold getTileRange. cbn [fst snd].
  split; [lia|]. split; [lia|].
  intros t [Hlo Hhi]. symmetry. apply tile_of_index; lia.
Qed.

Lemma getTileRange_partition_witness :
  0 <= 5 / 4 < ceil_div 7 4
  /\ (Demo.getTileRange (5 / 4) 7).1 <= 5
  /\ 5 <= (Demo.getTileRange (5 / 4) 7).2
  /\ forall t, (Demo.getTileRange t 7).1 <= 5 /\ 5 <= (Demo.getTileRange t 7).2 ->
               t = 5 / 4.
Proof. apply (getTileRange_partition 4 7 5); lia. Defined.

(** X7. The tiles of a dimension are contiguous.  Tile 0 starts at 0; a
    tile that is not the last one holds exactly [TILE_SIZE] indices and the
    next tile starts right after its end; the last tile ends at
    [extent - 1] and holds between 1 and [TILE_SIZE] indices. *)
Theorem getTileRange_contiguous (TILE_SIZE extent t : Z) :
  0 < TILE_SIZE -> 0 < extent -> 0 <= t < ceil_div extent TILE_SIZE ->
  (getTileRange TILE_SIZE 0 extent).1 = 0
  /\ (t < ceil_div extent TILE_SIZE - 1 ->
      (getTileRange TILE_SIZE t extent).2
      = (getTileRange TILE_SIZE t extent).1 + TILE_SIZE - 1
      /\ (getTileRange TILE_SIZE (t + 1) extent).1
         = (getTileRange TILE_SIZE t extent).2 + 1)
  /\ (t = ceil_div extent TILE_SIZE - 1 ->
      (getTileRange TILE_SIZE t extent).2 = extent - 1
      /\ 1 <= (getTileRange TILE_SIZE t extent).2
              - (getTileRange TILE_SIZE t extent).1 + 1 <= TILE_SIZE).
Proof.
  intros HT HE Ht. pose proof (ceil_div_bounds extent TILE_SIZE HT) as Hb.
  unfold getTileRange. cbn [fst snd].
  split; [lia|]. split; intros Hlast.
  - assert ((t + 1) * TILE_SIZE <= (ceil_div extent TILE_SIZE - 1) * TILE_SIZE)
      by (apply Z.mul_le_mono_nonneg_r; lia).
    lia.
  - subst t. lia.
Qed.

Lemma getTileRange_contiguous_witness :
  (Demo.getTileRange 0 9).1 = 0
  /\ (Demo.getTileRange 1 9).2 = (Demo.getTileRange 1 9).1 + 4 - 1
  /\ (Demo.getTileRange 2 9).1 = (Demo.getTileRange 1 9).2 + 1.
Proof.
  destruct (getTileRange_contiguous 4 9 1) as (H1 & H2 & _); try lia.
  { change (ceil_div 9 4) with 3. lia. }
  destruct H2 as [H2 H3].
  { change (ceil_div 9 4) with 3. lia. }
  split; [exact H1|]. split; [exact H2|exact H3].
Defined.

Lemma getTileRange_within (TILE_SIZE extent t : Z) :
  0 < TILE_SIZE -> 0 <= t < ceil_div extent TILE_SIZE ->
  range_within extent (getTileRange TILE_SIZE t extent).
Proof.
  intros HT Ht. pose proof (tile_start_lt TILE_SIZE HT extent t Ht).
  unfold range_within, getTileRange. cbn [fst snd]. nia.
Qed.

(** X8. The highlighted ranges are real tiles.  At a step of
    [0, TOTAL_STEPS) the row and column ranges of the three highlighted
    blocks (of A, of B and of C) are not empty and lie inside their
    matrices, and the inner range of A is the inner range of B. *)
Theorem active_ranges_within (TILE_SIZE M N K s : Z) :
  0 < TILE_SIZE -> 0 < M -> 0 < N -> 0 < K ->
  0 <= s < TOTAL_STEPS TILE_SIZE M N K ->
  range_within M (TiledView.row (TiledView.activeA TILE_SIZE M N K s))
  /\ range_within N (TiledView.col (TiledView.activeA TILE_SIZE M N K s))
  /\ range_within N (TiledView.row (TiledView.activeB TILE_SIZE N K s))
  /\ range_within K (TiledView.col (TiledView.activeB TILE_SIZE N K s))
  /\ range_within M (TiledView.row (TiledView.activeC TILE_SIZE M N K s))
  /\ range_within K (TiledView.col (TiledView.activeC TILE_SIZE M N K s))
  /\ TiledView.col (TiledView.activeA TILE_SIZE M N K s)
     = TiledView.row (TiledView.activeB TILE_SIZE N K s).
Proof.
  intros HT HM HN HK Hs.
  pose proof (COL_TILES_pos TILE_SIZE K HT HK) as HC.
  pose proof (INNER_TILES_pos TILE_SIZE N HT HN) as HI.
  pose proof (decode_in _ _ HC HI (ROW_TILES TILE_SIZE M) s Hs) as Hin.
  unfold TiledView.activeA, TiledView.activeB, TiledView.activeC, decodeStep.
  unfold triple_in in Hin. cbn [TiledView.row TiledView.col].
  repeat split; try (apply getTileRange_within; [done|]; tauto).
Qed.

Lemma active_ranges_within_witness :
  range_within 7 (TiledView.row (TiledView.activeA 4 7 6 9 11))
  /\ range_within 6 (TiledView.col (TiledView.activeA 4 7 6 9 11)).
Proof.
  destruct (active_ranges_within 4 7 6 9 11) as (H1 & H2 & _); try lia.
  { change (TOTAL_STEPS 4 7 6 9) with 12. lia. }
  split; [exact H1|exact H2].
Defined.

Lemma entry_tabulate (rows cols : Z) (f : Z -> Z -> Z) (r c : Z) :
  0 <= r < rows -> 0 <= c < cols ->
  entry ((fun r => (fun c => f r c) <$> seqZ 0 cols) <$> seqZ 0 rows) r c = f r c.
Proof.
  intros Hr Hc. unfold entry, array_get.
  destruct (Z.ltb_spec r 0); [lia|]. destruct (Z.ltb_spec c 0); [lia|].
  rewrite list_lookup_fmap, lookup_seqZ_lt by lia. simpl.
  rewrite list_lookup_fmap, lookup_seqZ_lt by lia. simpl.
  by rewrite !Z.add_0_l, !Z2Nat.id by lia.
Qed.

Lemma buildMatrix_shape (rows cols seed : Z) :
  0 <= rows -> 0 <= cols -> has_shape rows cols (buildMatrix rows cols seed).
Proof. intros. unfold buildMatrix. by apply has_shape_tabulate. Qed.



(** ** The grids *)

Lemma grid_index (cols r c : Z) :
  0 < cols -> 0 <= r -> 0 <= c < cols ->
  (r * cols + c) / cols = r /\ Z.rem (r * cols + c) cols = c.
Proof.
  intros Hcols Hr Hc. split.
  - apply tile_of_index; lia.
  - rewrite Z.rem_mod_nonneg by nia. symmetry.
    apply (Z.mod_unique _ _ r); lia.
Qed.

Lemma MatrixGrid_lookup (TILE_SIZE N rows cols : Z)
    (values : option (list (list cell_value)))
    (activeRange : option TiledView.TileRange) (t : TiledView.tone)
    (tileProgressMap : option (list (list Z))) (showProgressLabels : bool) (r c : Z) :
  0 <= r < rows -> 0 <= c < cols ->
  TiledView.MatrixGrid TILE_SIZE N rows cols values activeRange t
                       tileProgressMap showProgressLabels
  !! Z.to_nat (r * cols + c)
  = Some (TiledView.MatrixCell TILE_SIZE N r c rows cols
            (values ≫= fun v => cell v r c) activeRange t
            (default 0 (tileProgressMap ≫= fun m =>
                        array_get m (r / TILE_SIZE) ≫= fun progressRow =>
                        array_get progressRow (c / TILE_SIZE)))
            (showProgressLabels && (Z.rem r TILE_SIZE =? 0)
             && (Z.rem c TILE_SIZE =? 0))).
Proof.
  intros Hr Hc. unfold TiledView.MatrixGrid.
  assert (r * cols + c < rows * cols) by nia.
  assert (0 <= r * cols + c) by nia.
  rewrite list_lookup_fmap, lookup_seqZ_lt by lia.
  rewrite Z.add_0_l, Z2Nat.id by lia.
  cbn [fmap option_fmap option_map]. cbv beta zeta.
  destruct (grid_index cols r c ltac:(lia) ltac:(lia) Hc) as [-> ->]. done.
Qed.

Lemma MatrixGrid_length (TILE_SIZE N rows cols : Z)
    (values : option (list (list cell_value)))
    (activeRange : option TiledView.TileRange) (t : TiledView.tone)
    (tileProgressMap : option (list (list Z))) (showProgressLabels : bool) :
  length (TiledView.MatrixGrid TILE_SIZE N rows cols values activeRange t
                               tileProgressMap showProgressLabels)
  = Z.to_nat (rows * cols).
Proof. unfold TiledView.MatrixGrid. by rewrite length_fmap, length_seqZ. Qed.

Lemma cTileProgress_lookup (TILE_SIZE M N K s rt ct : Z) :
  0 <= rt < ROW_TILES TILE_SIZE M -> 0 <= ct < COL_TILES TILE_SIZE K ->
  (array_get (cTileProgress TILE_SIZE M N K s) rt ≫= fun progressRow =>
   array_get progressRow ct)
  = Some (tileContributionCount TILE_SIZE N K s rt ct).
Proof.
  intros Hrt Hct. unfold cTileProgress, array_get.
  destruct (Z.ltb_spec rt 0); [lia|]. destruct (Z.ltb_spec ct 0); [lia|].
  rewrite list_lookup_fmap, lookup_seqZ_lt by lia. simpl.
  rewrite list_lookup_fmap, lookup_seqZ_lt by lia. simpl.
  by rewrite !Z.add_0_l, !Z2Nat.id by lia.
Qed.

Lemma inRange_tile (TILE_SIZE extent t x : Z) :
  0 < TILE_SIZE -> 0 <= x < extent ->
  TiledView.inRange x (Some (getTileRange TILE_SIZE t extent)) = true
  <-> x / TILE_SIZE = t.
Proof.
  intros HT Hx. unfold TiledView.inRange, getTileRange. cbn [fst snd].
  rewrite andb_true_iff, Z.geb_le, Z.leb_le. split.
  - intros [Hlo Hhi]. apply tile_of_index; lia.
  - intros <-.
    pose proof (Z.div_mod x TILE_SIZE ltac:(lia)).
    pose proof (Z.mod_pos_bound x TILE_SIZE HT). lia.
Qed.

Lemma gridC_eq (TILE_SIZE M N K s : Z) :
  0 < TILE_SIZE -> 0 < M -> 0 < N -> 0 < K ->
  TiledView.gridC TILE_SIZE M N K s
  = Some (TiledView.MatrixGrid TILE_SIZE N M K
            (Some ((fun r =>
                      (fun c => expected_cell TILE_SIZE N K (TiledView.matrixA M N)
                                              (TiledView.matrixB N K) s r c)
                        <$> seqZ 0 K) <$> seqZ 0 M))
            (Some (TiledView.activeC TILE_SIZE M N K s)) TiledView.ToneC
            (Some (cTileProgress TILE_SIZE M N K s)) true).
Proof.
  intros HT HM HN HK. unfold TiledView.gridC.
  rewrite (buildPartialC_cells TILE_SIZE M N K)
    by (done || apply buildMatrix_shape; lia).
  done.
Qed.

Lemma gridC_cell_lookup (TILE_SIZE M N K s r c : Z) :
  0 < TILE_SIZE -> 0 <= r < M -> 0 <= c < K ->
  TiledView.MatrixGrid TILE_SIZE N M K
    (Some ((fun r =>
              (fun c => expected_cell TILE_SIZE N K (TiledView.matrixA M N)
                                      (TiledView.matrixB N K) s r c)
                <$> seqZ 0 K) <$> seqZ 0 M))
    (Some (TiledView.activeC TILE_SIZE M N K s)) TiledView.ToneC
    (Some (cTileProgress TILE_SIZE M N K s)) true
  !! Z.to_nat (r * K + c)
  = Some (TiledView.MatrixCell TILE_SIZE N r c M K
            (expected_cell TILE_SIZE N K (TiledView.matrixA M N)
                           (TiledView.matrixB N K) s r c)
            (Some (TiledView.activeC TILE_SIZE M N K s)) TiledView.ToneC
            (tileContributionCount TILE_SIZE N K s (r / TILE_SIZE) (c / TILE_SIZE))
            ((r mod TILE_SIZE =? 0) && (c mod TILE_SIZE =? 0))).
Proof.
  intros HT Hr Hc. rewrite MatrixGrid_lookup by done.
  cbn [mbind option_bind]. rewrite cell_tabulate by done.
  rewrite (cTileProgress_lookup TILE_SIZE M N K) by (by apply tile_index_bounds).
  cbn [default]. rewrite !Z.rem_mod_nonneg by lia. done.
Qed.

(** X10. What the output grid shows.  For positive dimensions and at every
    integer step the output grid is rendered (the materializer returns); it
    has [M * K] cells in row-major order; the cell of entry [(r, c)] shows
    the materialized value of that entry, and it carries a progress label
    exactly when [(r, c)] is the first cell of its tile, the label being the
    tile's contribution count over [INNER_TILES]. *)
Theorem gridC_cells (TILE_SIZE M N K s : Z) :
  0 < TILE_SIZE -> 0 < M -> 0 < N -> 0 < K ->
  exists g,
    TiledView.gridC TILE_SIZE M N K s = Some g
    /\ length g = Z.to_nat (M * K)
    /\ forall r c, 0 <= r < M -> 0 <= c < K ->
       exists v,
         g !! Z.to_nat (r * K + c) = Some v
         /\ TiledView.text v
            = expected_cell TILE_SIZE N K (TiledView.matrixA M N) (TiledView.matrixB N K)
                            s r c
         /\ TiledView.progressLabel v
            = if (r mod TILE_SIZE =? 0) && (c mod TILE_SIZE =? 0)
              then Some (tileContributionCount TILE_SIZE N K s
                           (r / TILE_SIZE) (c / TILE_SIZE),
                         INNER_TILES TILE_SIZE N)
              else None.
Proof.
  intros HT HM HN HK. eexists. split; [by apply gridC_eq|].
  split; [apply MatrixGrid_length|].
  intros r c Hr Hc. eexists. split; [by apply gridC_cell_lookup|]. done.
Qed.

Lemma gridC_cells_witness :
  exists g v,
    TiledView.gridC 4 7 6 9 3 = Some g
    /\ g !! Z.to_nat (0 * 9 + 4) = Some v
    /\ TiledView.text v = Some (Int 134)
    /\ TiledView.progressLabel v = Some (2, 2).
Proof.
  destruct (gridC_cells 4 7 6 9 3) as (g & Hg & _ & Hcells); try lia.
  destruct (Hcells 0 4) as (v & Hv & Ht & Hl); try lia.
  exists g, v. split; [exact Hg|]. split; [exact Hv|].
  split; [rewrite Ht; reflexivity|rewrite Hl; reflexivity].
Defined.

Lemma activeC_inRange (TILE_SIZE M N K s rt ct it r c : Z) :
  0 < TILE_SIZE -> 0 <= r < M -> 0 <= c < K ->
  decodeStep TILE_SIZE N K s = (rt, ct, it) ->
  TiledView.inRange r (TiledView.row <$> Some (TiledView.activeC TILE_SIZE M N K s))
  && TiledView.inRange c (TiledView.col <$> Some (TiledView.activeC TILE_SIZE M N K s))
  = (r / TILE_SIZE =? rt) && (c / TILE_SIZE =? ct).
Proof.
  intros HT Hr Hc Hdec. unfold TiledView.activeC. rewrite Hdec.
  cbn [fmap option_fmap option_map TiledView.row TiledView.col].
  apply eq_true_iff_eq.
  rewrite !andb_true_iff, !(inRange_tile TILE_SIZE) by done.
  by rewrite !Z.eqb_eq.
Qed.

(** X11. The classes of the output grid agree with what it shows.  At a
    step of [0, TOTAL_STEPS) that decodes to (row tile, column tile, inner
    tile), for every entry [(r, c)] of the output grid: the cell has the
    plain class exactly when it shows no number; it is highlighted exactly
    when [(r, c)] lies in the decoded output tile; it has a final class
    exactly when its tile has all [INNER_TILES] contributions, and then it
    shows the entry of the full product. *)
Theorem gridC_classes (TILE_SIZE M N K s rt ct it : Z) :
  0 < TILE_SIZE -> 0 < M -> 0 < N -> 0 < K ->
  0 <= s < TOTAL_STEPS TILE_SIZE M N K ->
  decodeStep TILE_SIZE N K s = (rt, ct, it) ->
  exists g,
    TiledView.gridC TILE_SIZE M N K s = Some g
    /\ forall r c, 0 <= r < M -> 0 <= c < K ->
       exists v,
         g !! Z.to_nat (r * K + c) = Some v
         /\ (TiledView.className v = TiledView.Cell <-> TiledView.text v = None)
         /\ (highlighted (TiledView.className v) = true
             <-> r / TILE_SIZE = rt /\ c / TILE_SIZE = ct)
         /\ (final (TiledView.className v) = true
             <-> tileContributionCount TILE_SIZE N K s (r / TILE_SIZE) (c / TILE_SIZE)
                 = INNER_TILES TILE_SIZE N)
         /\ (final (TiledView.className v) = true ->
             TiledView.text v
             = Some (Int (sumZ (fun n => entry (TiledView.matrixA M N) r n
                                         * entry (TiledView.matrixB N K) n c)
                               (Z.to_nat N)))).
Proof.
  intros HT HM HN HK Hs Hdec. eexists. split; [by apply gridC_eq|].
  intros r c Hr Hc. eexists. split; [by apply gridC_cell_lookup|].
  unfold TiledView.MatrixCell. cbn [TiledView.className TiledView.text].
  rewrite (activeC_inRange TILE_SIZE M N K s rt ct it) by done.
  pose proof (INNER_TILES_pos TILE_SIZE N HT HN) as HI.
  pose proof (ceil_div_bounds N TILE_SIZE HT) as HIb.
  fold (INNER_TILES TILE_SIZE N) in HIb.
  pose proof (count_le TILE_SIZE N K s HT HN (r / TILE_SIZE) (c / TILE_SIZE)) as Hle.
  destruct (decoded_tile_count TILE_SIZE M N K s rt ct it HT HM HN HK Hs Hdec)
    as (Hact & Hit & _).
  unfold expected_cell, TiledView.matrixCellClasses.
  set (k := tileContributionCount TILE_SIZE N K s (r / TILE_SIZE) (c / TILE_SIZE)) in *.
  assert ((r / TILE_SIZE =? rt) && (c / TILE_SIZE =? ct) = true -> k = it + 1) as Hk.
  { intros [E1%Z.eqb_eq E2%Z.eqb_eq]%andb_true_iff. subst k. by rewrite E1, E2. }
  assert ((r / TILE_SIZE =? rt) && (c / TILE_SIZE =? ct) = true
          <-> r / TILE_SIZE = rt /\ c / TILE_SIZE = ct) as Hiff
    by (by rewrite andb_true_iff, !Z.eqb_eq).
  assert (0 <= k) as Hk0.
  { subst k. unfold tileContributionCount.
    destruct (Z.leb_spec
                (s - (r / TILE_SIZE * COL_TILES TILE_SIZE K + c / TILE_SIZE)
                     * INNER_TILES TILE_SIZE N + 1) 0); lia. }
  rewrite <- Hiff.
  destruct ((r / TILE_SIZE =? rt) && (c / TILE_SIZE =? ct)) eqn:Hactive;
    [specialize (Hk eq_refl)|clear Hk];
    destruct (Z.geb_spec k (INNER_TILES TILE_SIZE N));
    destruct (Z.gtb_spec k 0); destruct (Z.leb_spec k 0); try lia;
    (split; [|split; [|split]]);
    lazymatch goal with
    | |- _ <-> _ => split; intros Hx; (discriminate Hx || lia || done)
    | |- _ -> _ => intros Hx; (discriminate Hx || (do 3 f_equal; nia))
    end.
Qed.

Lemma gridC_classes_witness :
  exists g v,
    TiledView.gridC 4 7 6 9 2 = Some g
    /\ g !! Z.to_nat (1 * 9 + 5) = Some v
    /\ highlighted (TiledView.className v) = true
    /\ (TiledView.className v = TiledView.Cell <-> TiledView.text v = None).
Proof.
  destruct (gridC_classes 4 7 6 9 2 0 1 0) as (g & Hg & Hcells);
    try lia; try reflexivity.
  { change (TOTAL_STEPS 4 7 6 9) with 12. lia. }
  destruct (Hcells 1 5) as (v & Hv & H1 & H2 & _); try lia.
  exists g, v. split; [exact Hg|]. split; [exact Hv|].
  split; [|exact H1]. apply H2. split; reflexivity.
Defined.

Lemma cell_all_set (rows cols : Z) (m : list (list Z)) (r c : Z) :
  has_shape rows cols m -> 0 <= r < rows -> 0 <= c < cols ->
  cell (all_set m) r c = Some (Int (entry m r c)).
Proof.
  intros Hm Hr Hc.
  destruct (has_shape_row rows cols m r Hm Hr) as (mrow & Hrow & Hlen).
  destruct (array_get_Some mrow c ltac:(lia)) as [z Hz].
  unfold cell, entry, all_set, array_get in *.
  destruct (Z.ltb_spec r 0); [lia|]. destruct (Z.ltb_spec c 0); [lia|].
  rewrite list_lookup_fmap, Hrow. simpl.
  rewrite list_lookup_fmap, Hz. done.
Qed.

(** X12. The operand grids.  At any step that decodes to (row tile, column
    tile, inner tile), every cell of the grid of A shows its entry of A,
    carries no progress label, and is highlighted exactly when it lies in
    tile (row tile, inner tile) of A; every cell of the grid of B shows its
    entry of B and is highlighted exactly when it lies in tile (inner tile,
    column tile) of B. *)
Theorem operand_grids (TILE_SIZE M N K s rt ct it : Z) :
  0 < TILE_SIZE -> 0 < M -> 0 < N -> 0 < K ->
  decodeStep TILE_SIZE N K s = (rt, ct, it) ->
  (forall r n, 0 <= r < M -> 0 <= n < N ->
     exists v,
       TiledView.gridA TILE_SIZE M N K s !! Z.to_nat (r * N + n) = Some v
       /\ TiledView.text v = Some (Int (entry (TiledView.matrixA M N) r n))
       /\ TiledView.progressLabel v = None
       /\ TiledView.className v
          = if (r / TILE_SIZE =? rt) && (n / TILE_SIZE =? it)
            then TiledView.CellActiveA else TiledView.Cell)
  /\ (forall n c, 0 <= n < N -> 0 <= c < K ->
        exists v,
          TiledView.gridB TILE_SIZE N K s !! Z.to_nat (n * K + c) = Some v
          /\ TiledView.text v = Some (Int (entry (TiledView.matrixB N K) n c))
          /\ TiledView.progressLabel v = None
          /\ TiledView.className v
             = if (n / TILE_SIZE =? it) && (c / TILE_SIZE =? ct)
               then TiledView.CellActiveB else TiledView.Cell).
Proof.
  intros HT HM HN HK Hdec. split.
  - intros r n Hr Hn. eexists. split; [by apply MatrixGrid_lookup|].
    unfold TiledView.MatrixCell.
    cbn [TiledView.className TiledView.text TiledView.progressLabel mbind option_bind].
    split; [apply (cell_all_set M N); (done || apply buildMatrix_shape; lia)|].
    split; [done|].
    unfold TiledView.activeA. rewrite Hdec.
    cbn [fmap option_fmap option_map TiledView.row TiledView.col].
    unfold TiledView.matrixCellClasses.
    replace (TiledView.inRange r (Some (getTileRange TILE_SIZE rt M))
             && TiledView.inRange n (Some (getTileRange TILE_SIZE it N)))
      with ((r / TILE_SIZE =? rt) && (n / TILE_SIZE =? it)); [done|].
    apply eq_true_iff_eq.
    rewrite !andb_true_iff, !(inRange_tile TILE_SIZE) by done.
    by rewrite !Z.eqb_eq.
  - intros n c Hn Hc. eexists. split; [by apply MatrixGrid_lookup|].
    unfold TiledView.MatrixCell.
    cbn [TiledView.className TiledView.text TiledView.progressLabel mbind option_bind].
    split; [apply (cell_all_set N K); (done || apply buildMatrix_shape; lia)|].
    split; [done|].
    unfold TiledView.activeB. rewrite Hdec.
    cbn [fmap option_fmap option_map TiledView.row TiledView.col].
    unfold TiledView.matrixCellClasses.
    replace (TiledView.inRange n (Some (getTileRange TILE_SIZE it N))
             && TiledView.inRange c (Some (getTileRange TILE_SIZE ct K)))
      with ((n / TILE_SIZE =? it) && (c / TILE_SIZE =? ct)); [done|].
    apply eq_true_iff_eq.
    rewrite !andb_true_iff, !(inRange_tile TILE_SIZE) by done.
    by rewrite !Z.eqb_eq.
Qed.

Lemma operand_grids_witness :
  exists v,
    TiledView.gridA 4 7 6 9 3 !! Z.to_nat (1 * 6 + 4) = Some v
    /\ TiledView.text v = Some (Int (entry (TiledView.matrixA 7 6) 1 4))
    /\ TiledView.className v = TiledView.CellActiveA.
Proof.
  destruct (operand_grids 4 7 6 9 3 0 1 1) as [HA _]; try lia; try reflexivity.
  destruct (HA 1 4) as (v & Hv & Ht & _ & Hc); try lia.
  exists v. split; [exact Hv|]. split; [exact Ht|exact Hc].
Defined.

Lemma succ_mod_zero (t x : Z) :
  0 < t -> 0 <= x -> ((x + 1) mod t = 0 <-> x = x / t * t + t - 1).
Proof.
  intros Ht Hx.
  pose proof (Z.div_mod x t ltac:(lia)) as Hdm.
  pose proof (Z.mod_pos_bound x t Ht) as Hm.
  split.
  - intros Hz. apply Z.mod_divide in Hz; [|lia]. destruct Hz as [q Hq].
    assert (q = x / t + 1) by nia. nia.
  - intros Heq. symmetry. apply (Z.mod_unique _ _ (x / t + 1)); lia.
Qed.

(** X13. Thick borders mark tile boundaries.  For a cell [(r, c)] of a
    [rows x cols] grid, the right border is 2 wide exactly when [c] is the
    last column of its tile and another column follows, and 1 wide
    otherwise; likewise for the bottom border and rows. *)
Theorem tile_borders (TILE_SIZE N r c rows cols : Z) (value : cell_value)
    (activeRange : option TiledView.TileRange) (t : TiledView.tone)
    (tileProgress : Z) (showProgressLabel : bool) :
  0 < TILE_SIZE -> 0 <= r < rows -> 0 <= c < cols ->
  TiledView.borderRightWidth
    (TiledView.MatrixCell TILE_SIZE N r c rows cols value activeRange t
                          tileProgress showProgressLabel)
  = (if decide (c = (getTileRange TILE_SIZE (c / TILE_SIZE) cols).2 /\ c + 1 < cols)
     then 2 else 1)
  /\ TiledView.borderBottomWidth
       (TiledView.MatrixCell TILE_SIZE N r c rows cols value activeRange t
                             tileProgress showProgressLabel)
     = (if decide (r = (getTileRange TILE_SIZE (r / TILE_SIZE) rows).2 /\ r + 1 < rows)
        then 2 else 1).
Proof.
  intros HT Hr Hc. unfold TiledView.MatrixCell, getTileRange.
  cbn [TiledView.borderRightWidth TiledView.borderBottomWidth fst snd].
  rewrite !Z.rem_mod_nonneg by lia.
  pose proof (succ_mod_zero TILE_SIZE c HT ltac:(lia)) as Hcz.
  pose proof (succ_mod_zero TILE_SIZE r HT ltac:(lia)) as Hrz.
  split.
  - destruct (Z.eqb_spec ((c + 1) mod TILE_SIZE) 0), (Z.ltb_spec (c + 1) cols);
      simpl; case_decide; lia.
  - destruct (Z.eqb_spec ((r + 1) mod TILE_SIZE) 0), (Z.ltb_spec (r + 1) rows);
      simpl; case_decide; lia.
Qed.

Lemma tile_borders_witness :
  TiledView.borderRightWidth
    (TiledView.MatrixCell 4 6 0 3 7 9 None None TiledView.ToneC 0 false) = 2
  /\ TiledView.borderBottomWidth
       (TiledView.MatrixCell 4 6 0 3 7 9 None None TiledView.ToneC 0 false) = 1.
Proof.
  destruct (tile_borders 4 6 0 3 7 9 None None TiledView.ToneC 0 false)
    as [H1 H2]; try lia.
  split; [exact H1|exact H2].
Defined.

(** ** The controller of the tiled visualizer *)

Lemma rem_wrap_succ (t x : Z) :
  0 <= x < t -> Z.rem (x + 1) t = if decide (x + 1 = t) then 0 else x + 1.
Proof.
  intros Hx. rewrite Z.rem_mod_nonneg by lia. case_decide as Heq.
  - rewrite Heq. apply Z.mod_same. lia.
  - apply Z.mod_small. lia.
Qed.

Lemma rem_wrap_pred (t x : Z) :
  0 <= x < t -> Z.rem (x - 1 + t) t = if decide (x = 0) then t - 1 else x - 1.
Proof.
  intros Hx. rewrite Z.rem_mod_nonneg by lia. case_decide as Heq.
  - subst x. replace (0 - 1 + t) with (t - 1) by lia. apply Z.mod_small. lia.
  - symmetry. apply (Z.mod_unique _ _ 1); lia.
Qed.

Lemma handle_keeps_step_range (TILE_SIZE M N K : Z) (e : event) (s : State) :
  0 <= step s < TOTAL_STEPS TILE_SIZE M N K ->
  slider_value_within (TOTAL_STEPS TILE_SIZE M N K) e ->
  0 <= step (handle TILE_SIZE M N K e s) < TOTAL_STEPS TILE_SIZE M N K.
Proof.
  intros Hs He. destruct e; simpl in *; try lia.
  - rewrite rem_wrap_pred by done. case_decide; lia.
  - rewrite rem_wrap_succ by done. case_decide; lia.
  - unfold tick. destruct (timer s); simpl; [|done].
    rewrite rem_wrap_succ by done. case_decide; lia.
Qed.

(** X14. The step never leaves [0, TOTAL_STEPS).  Starting from the initial
    state, after any sequence of button presses, timer ticks and slider
    changes whose values lie in [0, TOTAL_STEPS), the step lies in
    [0, TOTAL_STEPS) and an interval is installed exactly while the autoplay
    flag is on. *)
Theorem controller_invariant (TILE_SIZE M N K : Z) (es : list event) :
  0 < TOTAL_STEPS TILE_SIZE M N K ->
  Forall (slider_value_within (TOTAL_STEPS TILE_SIZE M N K)) es ->
  0 <= step (run TILE_SIZE M N K es initial) < TOTAL_STEPS TILE_SIZE M N K
  /\ timer (run TILE_SIZE M N K es initial)
     = isPlaying (run TILE_SIZE M N K es initial).
Proof.
  intros Htotal. induction es as [|e es IH] using rev_ind; intros Hes.
  - simpl. split; [lia|done].
  - apply Forall_app in Hes as [Hes He]. apply Forall_inv in He.
    rewrite run_snoc. split; [|apply handle_timer].
    apply handle_keeps_step_range; [|done]. by apply IH.
Qed.

Lemma controller_invariant_witness :
  0 <= step (Demo.run [TogglePlay; Tick; Seek 11; Next; Prev; Prev] initial) < 12.
Proof.
  apply (controller_invariant 4 7 6 9 [TogglePlay; Tick; Seek 11; Next; Prev; Prev]).
  - change (TOTAL_STEPS 4 7 6 9) with 12. lia.
  - change (TOTAL_STEPS 4 7 6 9) with 12.
    repeat constructor; simpl; lia.
Defined.

(** X15. Autoplay loops.  From a state whose autoplay flag is on, with its
    interval installed and its step [s] in [0, TOTAL_STEPS), [n] timer ticks
    lead to step [(s + n) mod TOTAL_STEPS] and leave autoplay on: autoplay
    wraps past the last step and never stops by itself. *)
Theorem autoplay_ticks (TILE_SIZE M N K : Z) (s : State) (n : nat) :
  isPlaying s = true -> timer s = true ->
  0 <= step s < TOTAL_STEPS TILE_SIZE M N K ->
  step (run TILE_SIZE M N K (replicate n Tick) s)
  = (step s + Z.of_nat n) mod TOTAL_STEPS TILE_SIZE M N K
  /\ isPlaying (run TILE_SIZE M N K (replicate n Tick) s) = true
  /\ timer (run TILE_SIZE M N K (replicate n Tick) s) = true.
Proof.
  intros Hp Ht Hs. induction n as [|n (IHs & IHp & IHt)].
  - simpl. rewrite Z.add_0_r, Z.mod_small by lia. done.
  - replace (replicate (S n) Tick) with (replicate n Tick ++ [Tick])
      by (by rewrite <- replicate_cons_app).
    rewrite run_snoc.
    set (s' := run TILE_SIZE M N K (replicate n Tick) s) in *.
    simpl. unfold tick. rewrite IHt. simpl. split; [|done].
    rewrite IHs, Z.rem_mod_nonneg.
    + rewrite Z.add_mod_idemp_l by lia. f_equal. lia.
    + pose proof (Z.mod_pos_bound (step s + Z.of_nat n)
                    (TOTAL_STEPS TILE_SIZE M N K) ltac:(lia)). lia.
    + lia.
Qed.

Lemma autoplay_ticks_witness :
  step (Demo.run (replicate 12 Tick) (mkState 5 true true)) = 5
  /\ isPlaying (Demo.run (replicate 12 Tick) (mkState 5 true true)) = true.
Proof.
  destruct (autoplay_ticks 4 7 6 9 (mkState 5 true true) 12) as (H1 & H2 & _);
    try reflexivity.
  { change (TOTAL_STEPS 4 7 6 9) with 12. simpl. lia. }
  split; [exact H1|exact H2].
Defined.

(** X16. Next and Prev undo each other.  From a step of [0, TOTAL_STEPS),
    pressing Next then Prev, or Prev then Next, leads back to the same
    step, with autoplay off. *)
Theorem next_prev_inverse (TILE_SIZE M N K : Z) (s : State) :
  0 <= step s < TOTAL_STEPS TILE_SIZE M N K ->
  step (handle TILE_SIZE M N K Prev (handle TILE_SIZE M N K Next s)) = step s
  /\ step (handle TILE_SIZE M N K Next (handle TILE_SIZE M N K Prev s)) = step s
  /\ isPlaying (handle TILE_SIZE M N K Prev (handle TILE_SIZE M N K Next s)) = false
  /\ isPlaying (handle TILE_SIZE M N K Next (handle TILE_SIZE M N K Prev s)) = false.
Proof.
  intros Hs. simpl. split; [|split; [|done]].
  - rewrite (rem_wrap_succ _ (step s)) by done. case_decide.
    + rewrite rem_wrap_pred by lia. case_decide; lia.
    + rewrite rem_wrap_pred by lia. case_decide; lia.
  - rewrite (rem_wrap_pred _ (step s)) by done. case_decide.
    + rewrite rem_wrap_succ by lia. case_decide; lia.
    + rewrite rem_wrap_succ by lia. case_decide; lia.
Qed.

Lemma next_prev_inverse_witness :
  step (Demo.handle Prev (Demo.handle Next (mkState 11 true true))) = 11
  /\ step (Demo.handle Next (Demo.handle Prev (mkState 0 true true))) = 0.
Proof.
  split.
  - apply (next_prev_inverse 4 7 6 9 (mkState 11 true true)).
    change (TOTAL_STEPS 4 7 6 9) with 12. simpl. lia.
  - apply (next_prev_inverse 4 7 6 9 (mkState 0 true true)).
    change (TOTAL_STEPS 4 7 6 9) with 12. simpl. lia.
Defined.

(** * The im2col visualizer *)

Section Im2ColController.
Variables IMAGE_SIZE KERNEL_SIZE : Z.

Local Abbreviation total := (Im2ColViz.TOTAL_STEPS IMAGE_SIZE KERNEL_SIZE).
Local Abbreviation handleI := (Im2ColViz.handle IMAGE_SIZE KERNEL_SIZE).
Local Abbreviation runI := (Im2ColViz.run IMAGE_SIZE KERNEL_SIZE).

Lemma im2col_run_snoc (es : list Im2ColViz.event) (e : Im2ColViz.event)
    (s : Im2ColViz.State) :
  runI (es ++ [e]) s = handleI e (runI es s).
Proof. unfold Im2ColViz.run. by rewrite foldl_app. Qed.

Lemma im2col_handle_timer (e : Im2ColViz.event) (s : Im2ColViz.State) :
  Im2ColViz.timer (handleI e s) = Im2ColViz.isPlaying (handleI e s).
Proof. by destruct e. Qed.

Lemma im2col_handle_range (e : Im2ColViz.event) (s : Im2ColViz.State) :
  0 < total ->
  0 <= Im2ColViz.step s < total ->
  0 <= Im2ColViz.step (handleI e s) < total.
Proof.
  intros Htotal Hs. destruct e; simpl; try lia.
  - destruct (Z.geb_spec (Im2ColViz.step s + 1) total); lia.
  - unfold Im2ColViz.tick. destruct (Im2ColViz.timer s); [|done].
    destruct (Z.geb_spec (Im2ColViz.step s) (total - 1)); simpl; lia.
Qed.
End Im2ColController.

(** X17. The im2col step never leaves [0, TOTAL_STEPS).  Starting from the
    initial state, after any sequence of button presses, mode switches,
    timer ticks and slider changes with arbitrary integer values, the step
    lies in [0, TOTAL_STEPS) and an interval is installed exactly while the
    autoplay flag is on. *)
Theorem im2col_controller_invariant (IMAGE_SIZE KERNEL_SIZE : Z)
    (es : list Im2ColViz.event) :
  0 < Im2ColViz.TOTAL_STEPS IMAGE_SIZE KERNEL_SIZE ->
  0 <= Im2ColViz.step (Im2ColViz.run IMAGE_SIZE KERNEL_SIZE es Im2ColViz.initial)
    < Im2ColViz.TOTAL_STEPS IMAGE_SIZE KERNEL_SIZE
  /\ Im2ColViz.timer (Im2ColViz.run IMAGE_SIZE KERNEL_SIZE es Im2ColViz.initial)
     = Im2ColViz.isPlaying (Im2ColViz.run IMAGE_SIZE KERNEL_SIZE es Im2ColViz.initial).
Proof.
  intros Htotal. induction es as [|e es [IH _]] using rev_ind.
  - simpl. split; [lia|done].
  - rewrite im2col_run_snoc. split; [|apply im2col_handle_timer].
    by apply im2col_handle_range.
Qed.

Lemma im2col_controller_invariant_witness :
  0 <= Im2ColViz.step
         (Im2ColViz.run 5 2
            [Im2ColViz.Slider 99; Im2ColViz.StepOnce; Im2ColViz.Slider (-7)]
            Im2ColViz.initial) < 16.
Proof.
  apply (im2col_controller_invariant 5 2
           [Im2ColViz.Slider 99; Im2ColViz.StepOnce; Im2ColViz.Slider (-7)]).
  change (Im2ColViz.TOTAL_STEPS 5 2) with 16. lia.
Defined.

(** X18. Im2col autoplay stops at the last step.  From a state whose
    autoplay flag is on, with its interval installed and its step [s] in
    [0, TOTAL_STEPS): the first [TOTAL_STEPS - 1 - s] timer ticks advance
    the step by one each and leave autoplay on; any further tick leaves the
    step at [TOTAL_STEPS - 1] with autoplay off and no interval.  Autoplay
    never wraps around. *)
Theorem im2col_autoplay_stops (IMAGE_SIZE KERNEL_SIZE : Z) (s : Im2ColViz.State)
    (n : nat) :
  Im2ColViz.isPlaying s = true -> Im2ColViz.timer s = true ->
  0 <= Im2ColViz.step s < Im2ColViz.TOTAL_STEPS IMAGE_SIZE KERNEL_SIZE ->
  (Z.of_nat n <= Im2ColViz.TOTAL_STEPS IMAGE_SIZE KERNEL_SIZE - 1 - Im2ColViz.step s ->
   Im2ColViz.step (Im2ColViz.run IMAGE_SIZE KERNEL_SIZE (replicate n Im2ColViz.Tick) s)
   = Im2ColViz.step s + Z.of_nat n
   /\ Im2ColViz.isPlaying
        (Im2ColViz.run IMAGE_SIZE KERNEL_SIZE (replicate n Im2ColViz.Tick) s) = true
   /\ Im2ColViz.timer
        (Im2ColViz.run IMAGE_SIZE KERNEL_SIZE (replicate n Im2ColViz.Tick) s) = true)
  /\ (Im2ColViz.TOTAL_STEPS IMAGE_SIZE KERNEL_SIZE - 1 - Im2ColViz.step s < Z.of_nat n ->
      Im2ColViz.step (Im2ColViz.run IMAGE_SIZE KERNEL_SIZE (replicate n Im2ColViz.Tick) s)
      = Im2ColViz.TOTAL_STEPS IMAGE_SIZE KERNEL_SIZE - 1
      /\ Im2ColViz.isPlaying
           (Im2ColViz.run IMAGE_SIZE KERNEL_SIZE (replicate n Im2ColViz.Tick) s) = false
      /\ Im2ColViz.timer
           (Im2ColViz.run IMAGE_SIZE KERNEL_SIZE (replicate n Im2ColViz.Tick) s) = false).
Proof.
  intros Hp Ht Hs. induction n as [|n [IH1 IH2]].
  - split; [|lia]. intros _. simpl. split; [lia|done].
  - replace (replicate (S n) Im2ColViz.Tick)
      with (replicate n Im2ColViz.Tick ++ [Im2ColViz.Tick])
      by (by rewrite <- replicate_cons_app).
    rewrite im2col_run_snoc.
    set (s' := Im2ColViz.run IMAGE_SIZE KERNEL_SIZE (replicate n Im2ColViz.Tick) s) in *.
    simpl. unfold Im2ColViz.tick.
    destruct (decide (Z.of_nat n
                      <= Im2ColViz.TOTAL_STEPS IMAGE_SIZE KERNEL_SIZE - 1
                         - Im2ColViz.step s)) as [Hle|Hgt].
    + destruct (IH1 Hle) as (Hs' & Hp' & Ht'). rewrite Ht', Hs'.
      destruct (Z.geb_spec (Im2ColViz.step s + Z.of_nat n)
                  (Im2ColViz.TOTAL_STEPS IMAGE_SIZE KERNEL_SIZE - 1)); simpl.
      * split; [lia|]. intros _. split; [lia|done].
      * split; [|lia]. intros _. split; [lia|done].
    + destruct (IH2 ltac:(lia)) as (Hs' & Hp' & Ht'). rewrite Ht'.
      split; [lia|]. intros _. done.
Qed.

Lemma im2col_autoplay_stops_witness :
  Im2ColViz.step
    (Im2ColViz.run 5 2 (replicate 3 Im2ColViz.Tick)
                   (Im2ColViz.mkState Im2ColViz.conv 13 true true)) = 15
  /\ Im2ColViz.isPlaying
       (Im2ColViz.run 5 2 (replicate 3 Im2ColViz.Tick)
                      (Im2ColViz.mkState Im2ColViz.conv 13 true true)) = false.
Proof.
  destruct (im2col_autoplay_stops 5 2
              (Im2ColViz.mkState Im2ColViz.conv 13 true true) 3) as [_ H];
    try reflexivity.
  { change (Im2ColViz.TOTAL_STEPS 5 2) with 16. simpl. lia. }
  destruct H as (H1 & H2 & _).
  { change (Im2ColViz.TOTAL_STEPS 5 2) with 16. simpl. lia. }
  split; [exact H1|exact H2].
Defined.


(** ** Loops that push, and tabulated lists *)

Lemma seqZ_snoc (n : Z) : 0 <= n -> seqZ 0 (n + 1) = seqZ 0 n ++ [n].
Proof.
  intros Hn. rewrite seqZ_app by lia. by f_equal.
Qed.

Lemma for_lt_push {A : Type} (g : Z -> list A) (body : Z -> list A -> option (list A))
    (n : Z) (acc : list A) :
  0 <= n ->
  (forall i l, 0 <= i < n -> body i l = Some (l ++ g i)) ->
  for_lt 0 n body acc = Some (acc ++ (seqZ 0 n ≫= g)).
Proof.
  intros Hn Hbody.
  destruct (for_lt_invariant (fun i l => l = acc ++ (seqZ 0 i ≫= g)) body 0 n acc)
    as (l & Hl & ->); [done| | |done].
  - by rewrite app_nil_r.
  - intros i l Hi ->. rewrite Hbody by done. eexists. split; [done|].
    rewrite seqZ_snoc, bind_app, bind_singleton by lia.
    by rewrite app_assoc.
Qed.

Lemma for_le_as_for_lt {St : Type} (body : Z -> St -> option St) (lo hi : Z) (s : St) :
  for_le lo hi body s = for_lt lo (hi + 1) body s.
Proof. unfold for_le, for_lt. f_equal. lia. Qed.

Lemma div_mod_block (n q i : Z) :
  0 < n -> 0 <= i < n -> (q * n + i) / n = q /\ (q * n + i) mod n = i.
Proof.
  intros Hn Hi. split.
  - apply tile_of_index; lia.
  - symmetry. apply (Z.mod_unique _ _ q); lia.
Qed.

Lemma comprehension_tabulate {A : Type} (g : Z -> Z -> A) (m n : Z) :
  0 <= m -> 0 < n ->
  (seqZ 0 m ≫= fun q => seqZ 0 n ≫= fun i => [g q i])
  = (fun j => g (j / n) (j mod n)) <$> seqZ 0 (m * n).
Proof.
  intros Hm Hn.
  pose proof (seqZ_blocks n (Z.to_nat m) ltac:(lia)) as Hb.
  rewrite Z2Nat.id in Hb by lia. rewrite <- Hb, fmap_bind_list.
  apply list_bind_ext; [|done]. intros q.
  rewrite bind_ret_fmap, <- list_fmap_compose.
  apply Forall_fmap_ext, list.Forall_forall. intros i Hi%elem_of_seqZ. simpl.
  by destruct (div_mod_block n q i Hn ltac:(lia)) as [-> ->].
Qed.







(** ** im2col rows and results *)

Lemma image_read (rows cols : Z) (image : list (list Z)) (r c : Z) :
  has_shape rows cols image -> 0 <= r < rows -> 0 <= c < cols ->
  exists imageRow,
    array_get image r = Some imageRow
    /\ array_get imageRow c = Some (entry image r c).
Proof.
  intros Hm Hr Hc.
  destruct (has_shape_row rows cols image r Hm Hr) as (imageRow & Hrow & Hlen).
  destruct (array_get_Some imageRow c ltac:(lia)) as [z Hz].
  exists imageRow. split; [done|]. unfold entry. rewrite Hrow. simpl. by rewrite Hz.
Qed.

Lemma buildIm2Col_patches (IMAGE_SIZE KERNEL_SIZE : Z) (image : list (list Z)) :
  0 < KERNEL_SIZE <= IMAGE_SIZE ->
  has_shape IMAGE_SIZE IMAGE_SIZE image ->
  Im2ColViz.buildIm2Col IMAGE_SIZE KERNEL_SIZE image
  = Some (y ← seqZ 0 (Im2ColViz.OUTPUT_SIZE IMAGE_SIZE KERNEL_SIZE);
          x ← seqZ 0 (Im2ColViz.OUTPUT_SIZE IMAGE_SIZE KERNEL_SIZE);
          [patch_at KERNEL_SIZE image y x]).
Proof.
  intros Hk Hshape. unfold Im2ColViz.buildIm2Col, Im2ColViz.OUTPUT_SIZE.
  rewrite for_le_as_for_lt.
  rewrite (for_lt_push
             (fun y => x ← seqZ 0 (IMAGE_SIZE - KERNEL_SIZE + 1);
                       [patch_at KERNEL_SIZE image y x])); [done|lia|].
  intros y rows Hy. rewrite for_le_as_for_lt.
  apply (for_lt_push (fun x => [patch_at KERNEL_SIZE image y x])); [lia|].
  intros x rows' Hx.
  rewrite (for_lt_push
             (fun ky => kx ← seqZ 0 KERNEL_SIZE;
                        [Some (entry image (y + ky) (x + kx))])); [done|lia|].
  intros ky row Hky.
  apply (for_lt_push (fun kx => [Some (entry image (y + ky) (x + kx))])); [lia|].
  intros kx row' Hkx.
  destruct (image_read IMAGE_SIZE IMAGE_SIZE image (y + ky) (x + kx) Hshape)
    as (imageRow & Hrow & Helt); [lia..|].
  rewrite Hrow. simpl. by rewrite Helt.
Qed.

Lemma im2col_step_decode (IMAGE_SIZE KERNEL_SIZE step : Z) :
  0 <= step < Im2ColViz.TOTAL_STEPS IMAGE_SIZE KERNEL_SIZE ->
  0 < Im2ColViz.OUTPUT_SIZE IMAGE_SIZE KERNEL_SIZE ->
  Im2ColViz.currentX IMAGE_SIZE KERNEL_SIZE step
  = step mod Im2ColViz.OUTPUT_SIZE IMAGE_SIZE KERNEL_SIZE
  /\ 0 <= Im2ColViz.currentX IMAGE_SIZE KERNEL_SIZE step
       < Im2ColViz.OUTPUT_SIZE IMAGE_SIZE KERNEL_SIZE
  /\ 0 <= Im2ColViz.currentY IMAGE_SIZE KERNEL_SIZE step
       < Im2ColViz.OUTPUT_SIZE IMAGE_SIZE KERNEL_SIZE.
Proof.
  unfold Im2ColViz.TOTAL_STEPS, Im2ColViz.currentX, Im2ColViz.currentY.
  set (out := Im2ColViz.OUTPUT_SIZE IMAGE_SIZE KERNEL_SIZE). intros Hs Hout.
  rewrite Z.rem_mod_nonneg by lia.
  pose proof (Z.mod_pos_bound step out Hout).
  split; [done|]. split; [lia|]. split; [apply Z.div_pos; lia|].
  apply Z.div_lt_upper_bound; lia.
Qed.

Lemma patch_at_tabulate (size : Z) (image : list (list Z)) (y x : Z) :
  0 < size ->
  patch_at size image y x
  = (fun j => Some (entry image (y + j / size) (x + j mod size)))
      <$> seqZ 0 (size * size).
Proof.
  intros Hsize. unfold patch_at.
  by rewrite (comprehension_tabulate
                (fun ky kx => Some (entry image (y + ky) (x + kx)))) by lia.
Qed.

(** X19. The im2col matrix.  For a kernel size between 1 and the image
    size and an [IMAGE_SIZE x IMAGE_SIZE] image, [buildIm2Col] returns
    [TOTAL_STEPS] rows of [KERNEL_VECTOR_SIZE] entries; row [step] is the
    receptive field of output position [(currentY, currentX)], that is,
    its entry [ky * KERNEL_SIZE + kx] is
    [image[currentY + ky][currentX + kx]]; it is the row shown as the
    active patch. *)
Theorem buildIm2Col_rows (IMAGE_SIZE KERNEL_SIZE : Z) (image : list (list Z)) :
  0 < KERNEL_SIZE <= IMAGE_SIZE ->
  has_shape IMAGE_SIZE IMAGE_SIZE image ->
  exists rows,
    Im2ColViz.buildIm2Col IMAGE_SIZE KERNEL_SIZE image = Some rows
    /\ length rows = Z.to_nat (Im2ColViz.TOTAL_STEPS IMAGE_SIZE KERNEL_SIZE)
    /\ forall step, 0 <= step < Im2ColViz.TOTAL_STEPS IMAGE_SIZE KERNEL_SIZE ->
       Im2ColViz.activePatch rows step
       = patch_at KERNEL_SIZE image
                  (Im2ColViz.currentY IMAGE_SIZE KERNEL_SIZE step)
                  (Im2ColViz.currentX IMAGE_SIZE KERNEL_SIZE step)
       /\ array_get rows step = Some (Im2ColViz.activePatch rows step)
       /\ length (Im2ColViz.activePatch rows step)
          = Z.to_nat (Im2ColViz.KERNEL_VECTOR_SIZE KERNEL_SIZE)
       /\ forall ky kx, 0 <= ky < KERNEL_SIZE -> 0 <= kx < KERNEL_SIZE ->
            array_get (Im2ColViz.activePatch rows step) (ky * KERNEL_SIZE + kx)
            = Some (Some (entry image
                            (Im2ColViz.currentY IMAGE_SIZE KERNEL_SIZE step + ky)
                            (Im2ColViz.currentX IMAGE_SIZE KERNEL_SIZE step + kx))).
Proof.
  intros Hk Hshape. eexists. split; [by apply buildIm2Col_patches|].
  assert (0 < Im2ColViz.OUTPUT_SIZE IMAGE_SIZE KERNEL_SIZE) as Hout
    by (unfold Im2ColViz.OUTPUT_SIZE; lia).
  rewrite (comprehension_tabulate (patch_at KERNEL_SIZE image)) by lia.
  fold (Im2ColViz.TOTAL_STEPS IMAGE_SIZE KERNEL_SIZE).
  split; [by rewrite length_fmap, length_seqZ|].
  intros step Hstep.
  destruct (im2col_step_decode IMAGE_SIZE KERNEL_SIZE step Hstep Hout) as (HX & _ & _).
  assert (array_get
            ((fun j => patch_at KERNEL_SIZE image
                         (j / Im2ColViz.OUTPUT_SIZE IMAGE_SIZE KERNEL_SIZE)
                         (j mod Im2ColViz.OUTPUT_SIZE IMAGE_SIZE KERNEL_SIZE))
               <$> seqZ 0 (Im2ColViz.TOTAL_STEPS IMAGE_SIZE KERNEL_SIZE)) step
          = Some (patch_at KERNEL_SIZE image
                    (Im2ColViz.currentY IMAGE_SIZE KERNEL_SIZE step)
                    (Im2ColViz.currentX IMAGE_SIZE KERNEL_SIZE step))) as Hrow.
  { unfold array_get. destruct (Z.ltb_spec step 0); [lia|].
    rewrite list_lookup_fmap, lookup_seqZ_lt by lia. simpl.
    rewrite Z.add_0_l, Z2Nat.id, HX by lia. done. }
  unfold Im2ColViz.activePatch. rewrite Hrow. cbn [from_option]. unfold id.
  split; [done|]. split; [done|].
  rewrite patch_at_tabulate by lia.
  fold (Im2ColViz.KERNEL_VECTOR_SIZE KERNEL_SIZE).
  split; [by rewrite length_fmap, length_seqZ|].
  intros ky kx Hky Hkx. unfold array_get, Im2ColViz.KERNEL_VECTOR_SIZE.
  destruct (Z.ltb_spec (ky * KERNEL_SIZE + kx) 0); [nia|].
  rewrite list_lookup_fmap, lookup_seqZ_lt by nia. simpl.
  rewrite Z.add_0_l, Z2Nat.id by nia.
  by destruct (div_mod_block KERNEL_SIZE ky kx ltac:(lia) Hkx) as [-> ->].
Qed.

Lemma buildIm2Col_rows_witness :
  exists rows,
    Im2ColViz.buildIm2Col 5 2 (Im2ColViz.buildImage 5) = Some rows
    /\ Im2ColViz.activePatch rows 6 = [Some 3; Some 4; Some 4; Some 5].
Proof.
  destruct (buildIm2Col_rows 5 2 (Im2ColViz.buildImage 5)) as (rows & H1 & _ & H3).
  - lia.
  - split; [reflexivity|]. repeat constructor.
  - exists rows. split; [exact H1|].
    destruct (H3 6) as [H _].
    + change (Im2ColViz.TOTAL_STEPS 5 2) with 16. lia.
    + rewrite H. reflexivity.
Defined.




(** X21. The highlighted patch stays inside the image.  At a step of
    [0, TOTAL_STEPS), with a kernel size between 1 and the image size, an
    image cell [(x, y)] is highlighted exactly when
    [currentX <= x < currentX + KERNEL_SIZE] and
    [currentY <= y < currentY + KERNEL_SIZE]; every highlighted cell is a
    cell of the image, and its value is entry
    [(y - currentY) * KERNEL_SIZE + (x - currentX)] of the receptive field
    of the step. *)
Theorem active_cells (IMAGE_SIZE KERNEL_SIZE : Z) (image : list (list Z)) (step x y : Z) :
  0 < KERNEL_SIZE <= IMAGE_SIZE ->
  0 <= step < Im2ColViz.TOTAL_STEPS IMAGE_SIZE KERNEL_SIZE ->
  (Im2ColViz.active IMAGE_SIZE KERNEL_SIZE step x y = true
   <-> Im2ColViz.currentX IMAGE_SIZE KERNEL_SIZE step <= x
         < Im2ColViz.currentX IMAGE_SIZE KERNEL_SIZE step + KERNEL_SIZE
       /\ Im2ColViz.currentY IMAGE_SIZE KERNEL_SIZE step <= y
            < Im2ColViz.currentY IMAGE_SIZE KERNEL_SIZE step + KERNEL_SIZE)
  /\ (Im2ColViz.active IMAGE_SIZE KERNEL_SIZE step x y = true ->
      0 <= x < IMAGE_SIZE /\ 0 <= y < IMAGE_SIZE
      /\ array_get (patch_at KERNEL_SIZE image
                      (Im2ColViz.currentY IMAGE_SIZE KERNEL_SIZE step)
                      (Im2ColViz.currentX IMAGE_SIZE KERNEL_SIZE step))
                   ((y - Im2ColViz.currentY IMAGE_SIZE KERNEL_SIZE step) * KERNEL_SIZE
                    + (x - Im2ColViz.currentX IMAGE_SIZE KERNEL_SIZE step))
         = Some (Some (entry image y x))).
Proof.
  intros Hk Hstep.
  assert (0 < Im2ColViz.OUTPUT_SIZE IMAGE_SIZE KERNEL_SIZE) as Hout
    by (unfold Im2ColViz.OUTPUT_SIZE; lia).
  destruct (im2col_step_decode IMAGE_SIZE KERNEL_SIZE step Hstep Hout) as (_ & HX & HY).
  unfold Im2ColViz.active.
  set (cx := Im2ColViz.currentX IMAGE_SIZE KERNEL_SIZE step) in *.
  set (cy := Im2ColViz.currentY IMAGE_SIZE KERNEL_SIZE step) in *.
  unfold Im2ColViz.OUTPUT_SIZE in HX, HY.
  assert ((x >=? cx) && (x <? cx + KERNEL_SIZE) && (y >=? cy) && (y <? cy + KERNEL_SIZE)
          = true
          <-> cx <= x < cx + KERNEL_SIZE /\ cy <= y < cy + KERNEL_SIZE) as Hiff.
  { rewrite !andb_true_iff, !Z.geb_le, !Z.ltb_lt. lia. }
  split; [done|]. intros [Hx Hy]%Hiff.
  split; [lia|]. split; [lia|].
  rewrite patch_at_tabulate by lia. unfold array_get.
  destruct (Z.ltb_spec ((y - cy) * KERNEL_SIZE + (x - cx)) 0); [nia|].
  rewrite list_lookup_fmap, lookup_seqZ_lt by nia. simpl.
  rewrite Z.add_0_l, Z2Nat.id by nia.
  destruct (div_mod_block KERNEL_SIZE (y - cy) (x - cx) ltac:(lia) ltac:(lia))
    as [-> ->].
  do 3 f_equal; lia.
Qed.

Lemma active_cells_witness :
  Im2ColViz.active 5 2 6 3 2 = true
  /\ array_get (patch_at 2 (Im2ColViz.buildImage 5) 1 2) ((2 - 1) * 2 + (3 - 2))
     = Some (Some (entry (Im2ColViz.buildImage 5) 2 3)).
Proof.
  destruct (active_cells 5 2 (Im2ColViz.buildImage 5) 6 3 2) as [_ H]; try lia.
  { change (Im2ColViz.TOTAL_STEPS 5 2) with 16. lia. }
  split; [reflexivity|]. apply H. reflexivity.
Defined.

(** X22. The demonstration image and kernel.  For a non-negative size,
    [buildImage size] and [buildKernel size] are [size x size] matrices;
    entry [(y, x)] of the image is [(x + y) mod 10], between 0 and 9, and
    entry [(y, x)] of the kernel is [(x * y + 1) mod 5], between 0 and 4. *)
Theorem buildImage_buildKernel (size : Z) :
  0 <= size ->
  has_shape size size (Im2ColViz.buildImage size)
  /\ has_shape size size (Im2ColViz.buildKernel size)
  /\ forall y x, 0 <= y < size -> 0 <= x < size ->
       entry (Im2ColViz.buildImage size) y x = (x + y) mod 10
       /\ 0 <= entry (Im2ColViz.buildImage size) y x <= 9
       /\ entry (Im2ColViz.buildKernel size) y x = (x * y + 1) mod 5
       /\ 0 <= entry (Im2ColViz.buildKernel size) y x <= 4.
Proof.
  intros Hsize. unfold Im2ColViz.buildImage, Im2ColViz.buildKernel.
  split; [by apply has_shape_tabulate|]. split; [by apply has_shape_tabulate|].
  intros y x Hy Hx.
  rewrite (entry_tabulate size size (fun y x => Z.rem (x + y) 10)) by done.
  rewrite (entry_tabulate size size (fun y x => Z.rem (x * y + 1) 5)) by done.
  rewrite !Z.rem_mod_nonneg by nia.
  pose proof (Z.mod_pos_bound (x + y) 10 ltac:(lia)).
  pose proof (Z.mod_pos_bound (x * y + 1) 5 ltac:(lia)).
  repeat split; lia.
Qed.

Lemma buildImage_buildKernel_witness :
  has_shape 5 5 (Im2ColViz.buildImage 5)
  /\ entry (Im2ColViz.buildImage 5) 4 3 = (3 + 4) mod 10.
Proof.
  destruct (buildImage_buildKernel 5) as (H1 & _ & H3); [lia|].
  split; [exact H1|]. apply (H3 4 3); lia.
Defined.

(** ** Reads of missing rows *)

Lemma for_loop_fail {St : Type} (body : Z -> St -> option St) (n : nat) (lo i : Z)
    (s : St) :
  lo <= i < lo + Z.of_nat n ->
  (forall t, body i t = None) ->
  for_loop n lo body s = None.
Proof.
  revert lo s. induction n as [|n IH]; intros lo s Hi Hfail; [lia|].
  simpl. destruct (body lo s) as [s'|] eqn:Hbody; [|done]. simpl.
  destruct (decide (i = lo)) as [->|Hne]; [by rewrite Hfail in Hbody|].
  apply IH; [lia|done].
Qed.

Lemma for_lt_fail {St : Type} (body : Z -> St -> option St) (lo hi i : Z) (s : St) :
  lo <= i < hi -> (forall t, body i t = None) -> for_lt lo hi body s = None.
Proof. intros Hi Hfail. unfold for_lt. apply (for_loop_fail body _ lo i); [lia|done]. Qed.

Lemma for_le_fail {St : Type} (body : Z -> St -> option St) (lo hi i : Z) (s : St) :
  lo <= i <= hi -> (forall t, body i t = None) -> for_le lo hi body s = None.
Proof. intros Hi Hfail. unfold for_le. apply (for_loop_fail body _ lo i); [lia|done]. Qed.

Lemma array_get_past_end {A : Type} (arr : list A) (i : Z) :
  Z.of_nat (length arr) <= i -> array_get arr i = None.
Proof.
  intros Hi. unfold array_get. destruct (Z.ltb_spec i 0); [done|].
  apply lookup_ge_None_2. lia.
Qed.

(** X23. An image with too few rows makes [buildIm2Col] throw.  With a
    kernel size between 1 and the image size, if the image array holds
    fewer than [IMAGE_SIZE] rows (whatever their lengths), the read of the
    first missing row raises the TypeError: the call does not return. *)
Theorem buildIm2Col_missing_row (IMAGE_SIZE KERNEL_SIZE : Z) (image : list (list Z)) :
  0 < KERNEL_SIZE <= IMAGE_SIZE ->
  Z.of_nat (length image) < IMAGE_SIZE ->
  Im2ColViz.buildIm2Col IMAGE_SIZE KERNEL_SIZE image = None.
Proof.
  intros Hk Hlen. unfold Im2ColViz.buildIm2Col.
  set (len := Z.of_nat (length image)) in *.
  set (y0 := Z.max 0 (len - KERNEL_SIZE + 1)).
  apply (for_le_fail _ _ _ y0); [lia|]. intros rows.
  apply (for_le_fail _ _ _ 0); [lia|]. intros rows'.
  rewrite (for_lt_fail _ 0 KERNEL_SIZE (len - y0)); [done|lia|].
  intros row. apply (for_lt_fail _ _ _ 0); [lia|]. intros row'.
  rewrite (array_get_past_end image); [done|]. lia.
Qed.

Lemma buildIm2Col_missing_row_witness :
  Im2ColViz.buildIm2Col 5 2 [[0; 1; 2; 3; 4]; [1; 2; 3; 4; 5]] = None.
Proof. apply (buildIm2Col_missing_row 5 2); simpl; lia. Defined.

(** X24. A left operand with too few rows makes the materializer throw.
    For positive dimensions, if [matrixA] holds fewer than [M] rows and the
    first output tile of the tile row that contains the first missing row
    has at least one contribution at the step, [buildPartialC] raises the
    TypeError of reading a property of [undefined]: it does not return. *)
Theorem buildPartialC_missing_row (TILE_SIZE M N K : Z) (A B : list (list Z)) (step : Z) :
  0 < TILE_SIZE -> 0 < M -> 0 < N -> 0 < K ->
  Z.of_nat (length A) < M ->
  0 < tileContributionCount TILE_SIZE N K step (Z.of_nat (length A) / TILE_SIZE) 0 ->
  buildPartialC TILE_SIZE M N K A B step = None.
Proof.
  intros HT HM HN HK Hlen Hcount. unfold buildPartialC. cbv zeta.
  set (len := Z.of_nat (length A)) in *.
  pose proof (tile_index_bounds TILE_SIZE M len HT ltac:(lia)) as Hrt.
  fold (ROW_TILES TILE_SIZE M) in Hrt.
  pose proof (COL_TILES_pos TILE_SIZE K HT HK) as HC.
  pose proof (Z.div_mod len TILE_SIZE ltac:(lia)) as Hdm.
  pose proof (Z.mod_pos_bound len TILE_SIZE HT) as Hm.
  apply (for_lt_fail _ _ _ (len / TILE_SIZE)); [lia|]. intros out.
  apply (for_lt_fail _ _ _ 0); [lia|]. intros out'.
  destruct (Z.leb_spec (tileContributionCount TILE_SIZE N K step (len / TILE_SIZE) 0) 0);
    [lia|].
  unfold getTileRange. cbn [fst snd].
  apply (for_le_fail _ _ _ len); [lia|]. intros out''.
  apply (for_le_fail _ _ _ 0); [lia|]. intros out'''.
  rewrite (for_lt_fail _ 0 _ 0); [done|lia|]. intros sum.
  apply (for_le_fail _ _ _ 0); [lia|]. intros sum'.
  unfold read2. rewrite (array_get_past_end A len); [done|]. lia.
Qed.

Lemma buildPartialC_missing_row_witness :
  Demo.buildPartialC [[1; 2; 3; 4; 5; 6]] Demo.matrixB 0 = None.
Proof.
  apply (buildPartialC_missing_row 4 7 6 9 [[1; 2; 3; 4; 5; 6]] Demo.matrixB 0);
    try lia; simpl; try lia.
  reflexivity.
Defined.

(** * The photo grid *)

(** X25. The layout numbers of the photo grid.  For a column count of at
    least 1: the landscape section has [ceil (columns / 2)] columns, at
    least 1 and at most [columns]; the requested limit lies between 20 and
    36; and it covers the capacity of both sections together exactly when
    there are at most 8 columns. *)
Theorem layout_targets (columns : Z) :
  1 <= columns ->
  1 <= FlickrRecent.wideColumns columns <= columns
  /\ 2 * FlickrRecent.wideColumns columns - 1 <= columns
     <= 2 * FlickrRecent.wideColumns columns
  /\ 20 <= FlickrRecent.requestedLimit columns <= 36
  /\ (FlickrRecent.portraitTarget columns + FlickrRecent.wideTarget columns
      <= FlickrRecent.requestedLimit columns
      <-> columns <= 8).
Proof.
  intros Hc. pose proof (ceil_div_bounds columns 2 ltac:(lia)) as Hb.
  unfold FlickrRecent.requestedLimit, FlickrRecent.portraitTarget,
    FlickrRecent.wideTarget, FlickrRecent.wideColumns,
    FlickrRecent.MAX_ROWS, FlickrRecent.MAX_ITEMS.
  lia.
Qed.

Lemma layout_targets_witness :
  1 <= FlickrRecent.wideColumns 5 <= 5
  /\ 20 <= FlickrRecent.requestedLimit 5 <= 36.
Proof.
  destruct (layout_targets 5) as (H1 & _ & H3 & _); [lia|].
  split; [exact H1|exact H3].
Defined.

Lemma slice0_take {A : Type} (arr : list A) (end_ : Z) :
  0 <= end_ -> FlickrRecent.slice0 arr end_ = take (Z.to_nat end_) arr.
Proof.
  intros He. unfold FlickrRecent.slice0. by destruct (Z.ltb_spec end_ 0); [lia|].
Qed.

Lemma slice0_sublist {A : Type} (arr : list A) (end_ : Z) :
  FlickrRecent.slice0 arr end_ `sublist_of` arr.
Proof. apply sublist_take. Qed.

Lemma portraitItems_elem (items : list FlickrRecent.FlickrItem) (columns : Z)
    (item : FlickrRecent.FlickrItem) :
  item ∈ FlickrRecent.portraitItems items columns ->
  FlickrRecent.orientation item = FlickrRecent.portrait /\ item ∈ items.
Proof.
  intros Hin. eapply elem_of_sublist in Hin; [|apply slice0_sublist].
  by apply list_elem_of_filter in Hin.
Qed.

Lemma wideItems_elem (items : list FlickrRecent.FlickrItem) (columns : Z)
    (item : FlickrRecent.FlickrItem) :
  item ∈ FlickrRecent.wideItems items columns ->
  FlickrRecent.orientation item <> FlickrRecent.portrait /\ item ∈ items.
Proof.
  intros Hin. eapply elem_of_sublist in Hin; [|apply slice0_sublist].
  by apply list_elem_of_filter in Hin.
Qed.

Lemma targets_nonneg (columns : Z) :
  1 <= columns ->
  0 <= FlickrRecent.portraitTarget columns /\ 0 <= FlickrRecent.wideTarget columns.
Proof.
  intros Hc.
  unfold FlickrRecent.portraitTarget, FlickrRecent.wideTarget,
    FlickrRecent.wideColumns, FlickrRecent.MAX_ROWS. lia.
Qed.

(** X26. The two sections of cards.  For a column count of at least 1,
    each section lists items of the feed in feed order; the portrait
    section holds the first [portraitTarget] portrait items, the landscape
    section the first [wideTarget] items that are not portrait; no item is
    shown in both sections. *)
Theorem card_sections (items : list FlickrRecent.FlickrItem) (columns : Z) :
  1 <= columns ->
  FlickrRecent.portraitItems items columns `sublist_of` items
  /\ FlickrRecent.wideItems items columns `sublist_of` items
  /\ FlickrRecent.portraitItems items columns
     = take (Z.to_nat (FlickrRecent.portraitTarget columns))
            (filter (fun item => FlickrRecent.orientation item = FlickrRecent.portrait)
                    items)
  /\ FlickrRecent.wideItems items columns
     = take (Z.to_nat (FlickrRecent.wideTarget columns))
            (filter (fun item => FlickrRecent.orientation item <> FlickrRecent.portrait)
                    items)
  /\ Z.of_nat (length (FlickrRecent.portraitItems items columns))
     <= FlickrRecent.portraitTarget columns
  /\ Z.of_nat (length (FlickrRecent.wideItems items columns))
     <= FlickrRecent.wideTarget columns
  /\ forall item, item ∈ FlickrRecent.portraitItems items columns ->
                  item ∉ FlickrRecent.wideItems items columns.
Proof.
  intros Hc.
  destruct (targets_nonneg columns Hc) as [Hp Hw].
  unfold FlickrRecent.portraitItems, FlickrRecent.wideItems.
  rewrite !slice0_take by lia.
  split; [etrans; [apply sublist_take|apply sublist_filter]|].
  split; [etrans; [apply sublist_take|apply sublist_filter]|].
  split; [done|]. split; [done|].
  split; [rewrite length_take; lia|]. split; [rewrite length_take; lia|].
  intros item Hin Hin'.
  eapply elem_of_sublist in Hin; [|apply sublist_take].
  eapply elem_of_sublist in Hin'; [|apply sublist_take].
  apply list_elem_of_filter in Hin. apply list_elem_of_filter in Hin'.
  tauto.
Qed.

Lemma card_sections_witness :
  let p := FlickrRecent.mkFlickrItem "a" "l1" "u1" None None [] None None
             FlickrRecent.portrait in
  let w := FlickrRecent.mkFlickrItem "b" "l2" "u2" None None [] None None
             FlickrRecent.square in
  FlickrRecent.portraitItems [p; w; p; p; p] 1 = [p; p; p]
  /\ FlickrRecent.wideItems [p; w; p; p; p] 1 `sublist_of` [p; w; p; p; p].
Proof.
  intros p w.
  destruct (card_sections [p; w; p; p; p] 1) as (_ & H2 & _); [lia|].
  split; [reflexivity|exact H2].
Defined.

(** X27. The thumbnails of the two sections.  Every card of the portrait
    section is drawn with the ratio 3 / 4 and every card of the landscape
    section with 16 / 9: the 1 / 1 branch of the portrait section and the
    3 / 4 branch of the landscape section are never taken. *)
Theorem section_thumbnails (items : list FlickrRecent.FlickrItem) (columns : Z)
    (item : FlickrRecent.FlickrItem) :
  (item ∈ FlickrRecent.portraitItems items columns ->
   FlickrRecent.thumbAspectRatioForSection FlickrRecent.SectionPortrait
     (FlickrRecent.orientation item) = FlickrRecent.Ratio_3_4)
  /\ (item ∈ FlickrRecent.wideItems items columns ->
      FlickrRecent.thumbAspectRatioForSection FlickrRecent.SectionWide
        (FlickrRecent.orientation item) = FlickrRecent.Ratio_16_9).
Proof.
  split; intros Hin.
  - apply portraitItems_elem in Hin as [-> _]. reflexivity.
  - apply wideItems_elem in Hin as [Ho _].
    by destruct (FlickrRecent.orientation item).
Qed.

Lemma section_thumbnails_witness :
  let p := FlickrRecent.mkFlickrItem "a" "l1" "u1" None None [] None None
             FlickrRecent.portrait in
  let w := FlickrRecent.mkFlickrItem "b" "l2" "u2" None None [] None None
             FlickrRecent.square in
  FlickrRecent.wideItems [p; w] 5 = [w]
  /\ FlickrRecent.thumbAspectRatioForSection FlickrRecent.SectionWide
       (FlickrRecent.orientation w) = FlickrRecent.Ratio_16_9.
Proof.
  intros p w. split; [reflexivity|].
  apply (section_thumbnails [p; w] 5 w). vm_compute. apply list_elem_of_here.
Defined.

Lemma indexOf_first (arr : list string) (x : string) (i : nat) :
  FlickrRecent.indexOf arr x = Z.of_nat i
  <-> arr !! i = Some x /\ forall j, (j < i)%nat -> arr !! j <> Some x.
Proof.
  unfold FlickrRecent.indexOf.
  destruct (list_find (fun y => y = x) arr) as [[k y]|] eqn:Hf.
  - apply list_find_Some in Hf as (Hk & -> & Hmin). split.
    + intros Hi. assert (k = i) as -> by lia. split; [done|].
      intros j Hj Hx. by apply (Hmin j x).
    + intros [Hi Hfirst]. f_equal.
      destruct (Nat.lt_trichotomy k i) as [Hlt|[->|Hlt]]; [|done|].
      * by destruct (Hfirst k Hlt).
      * by destruct (Hmin i x Hi Hlt).
  - split; [lia|]. intros [Hi _].
    apply list_find_None in Hf. rewrite list.Forall_forall in Hf.
    destruct (Hf x); [|done]. by apply list_elem_of_lookup_2 in Hi.
Qed.

Lemma indexOf_exists (arr : list string) (x : string) :
  x ∈ arr -> exists i : nat, FlickrRecent.indexOf arr x = Z.of_nat i /\ arr !! i = Some x.
Proof.
  intros Hin. unfold FlickrRecent.indexOf.
  destruct (list_find (fun y => y = x) arr) as [[k y]|] eqn:Hf.
  - apply list_find_Some in Hf as (Hk & -> & _). by exists k.
  - apply list_find_None in Hf. rewrite list.Forall_forall in Hf.
    by destruct (Hf x Hin).
Qed.

Lemma elem_of_filter_from {A : Type} (p : A -> Z -> bool) (arr : list A) :
  forall (i : Z) (x : A),
    x ∈ FlickrRecent.filter_from p i arr
    <-> exists j : nat, arr !! j = Some x /\ p x (i + Z.of_nat j) = true.
Proof.
  induction arr as [|y rest IH]; intros i x; cbn [FlickrRecent.filter_from].
  - split; [by intros ?%elem_of_nil|by intros (j & ? & _)].
  - rewrite elem_of_app, IH. split.
    + intros [Hy|(j & Hj & Hp)].
      * destruct (p y i) eqn:Hp; [|by apply elem_of_nil in Hy].
        apply list_elem_of_singleton in Hy as ->. exists 0%nat.
        split; [done|]. by rewrite Z.add_0_r.
      * exists (S j). split; [done|]. by replace (i + Z.of_nat (S j)) with (i + 1 + Z.of_nat j) by lia.
    + intros ([|j] & Hj & Hp).
      * left. injection Hj as ->. rewrite Z.add_0_r in Hp. rewrite Hp.
        by apply list_elem_of_singleton.
      * right. exists j. split; [done|].
        by replace (i + 1 + Z.of_nat j) with (i + Z.of_nat (S j)) by lia.
Qed.

Lemma NoDup_filter_from {A : Type} (p : A -> Z -> bool) (arr : list A) :
  forall i : Z,
    (forall (j1 j2 : nat) (x : A),
        arr !! j1 = Some x -> arr !! j2 = Some x ->
        p x (i + Z.of_nat j1) = true -> p x (i + Z.of_nat j2) = true -> j1 = j2) ->
    NoDup (FlickrRecent.filter_from p i arr).
Proof.
  induction arr as [|y rest IH]; intros i Hinj; cbn [FlickrRecent.filter_from].
  - constructor.
  - assert (NoDup (FlickrRecent.filter_from p (i + 1) rest)) as Hrest.
    { apply IH. intros j1 j2 x H1 H2 Hp1 Hp2.
      assert (S j1 = S j2) as Heq; [|lia].
      apply (Hinj (S j1) (S j2) x); try done.
      - by replace (i + Z.of_nat (S j1)) with (i + 1 + Z.of_nat j1) by lia.
      - by replace (i + Z.of_nat (S j2)) with (i + 1 + Z.of_nat j2) by lia. }
    destruct (p y i) eqn:Hp; [|done].
    cbn [app]. constructor; [|done].
    intros (j & Hj & Hpj)%elem_of_filter_from.
    assert (0%nat = S j) as Heq; [|lia].
    apply (Hinj 0%nat (S j) y); try done.
    + by rewrite Z.add_0_r.
    + by replace (i + Z.of_nat (S j)) with (i + 1 + Z.of_nat j) by lia.
Qed.

Lemma filter_from_sublist {A : Type} (p : A -> Z -> bool) (arr : list A) :
  forall i : Z, FlickrRecent.filter_from p i arr `sublist_of` arr.
Proof.
  induction arr as [|y rest IH]; intros i; cbn [FlickrRecent.filter_from].
  - constructor.
  - destruct (p y i); cbn [app].
    + by apply sublist_skip.
    + by apply sublist_cons.
Qed.

(** Keeping the entries that sit at their own [indexOf] removes the
    duplicates and nothing else, and keeps the first entry in front. *)
Lemma first_occurrences (arr : list string) :
  let kept := FlickrRecent.filter_from
                (fun url index => bool_decide (FlickrRecent.indexOf arr url = index))
                0 arr in
  NoDup kept
  /\ (forall u, u ∈ kept <-> u ∈ arr)
  /\ kept `sublist_of` arr
  /\ head kept = head arr.
Proof.
  intros kept. split; [|split; [|split]].
  - apply NoDup_filter_from. intros j1 j2 x H1 H2 Hp1 Hp2.
    apply bool_decide_eq_true in Hp1, Hp2. rewrite Z.add_0_l in Hp1, Hp2.
    lia.
  - intros u. unfold kept. rewrite elem_of_filter_from. split.
    + intros (j & Hj & _). by apply list_elem_of_lookup_2 in Hj.
    + intros (i & Hi & Hu)%indexOf_exists. exists i. split; [done|].
      apply bool_decide_eq_true. lia.
  - apply filter_from_sublist.
  - unfold kept. destruct arr as [|y rest]; [done|].
    cbn [FlickrRecent.filter_from head].
    rewrite bool_decide_eq_true_2; [done|].
    apply (indexOf_first (y :: rest) y 0). split; [done|]. lia.
Qed.

(** X28. The candidate URLs of the featured image, for any URL rewrite
    [toFlickrSizedUrl]: the list has no duplicates, holds exactly the three
    sized URLs and the source URL, keeps them in the order b, c, z, source,
    starts with the b-sized URL, and has between 1 and 4 entries. *)
Theorem featured_candidates (toFlickrSizedUrl : string -> string -> string)
    (item : FlickrRecent.FlickrItem) :
  let source := FlickrRecent.imageUrl item in
  let all := [toFlickrSizedUrl source "b"; toFlickrSizedUrl source "c";
              toFlickrSizedUrl source "z"; source] in
  let cs := FlickrRecent.featuredImageCandidates toFlickrSizedUrl (Some item) in
  NoDup cs
  /\ (forall u, u ∈ cs <-> u ∈ all)
  /\ cs `sublist_of` all
  /\ head cs = Some (toFlickrSizedUrl source "b")
  /\ (1 <= length cs <= 4)%nat.
Proof.
  intros source all cs.
  destruct (first_occurrences all) as (Hnd & Hel & Hsub & Hhd).
  change (FlickrRecent.filter_from _ 0 all) with cs in Hnd, Hel, Hsub, Hhd.
  split; [exact Hnd|]. split; [exact Hel|]. split; [exact Hsub|].
  split; [exact Hhd|]. split.
  - destruct cs; [discriminate Hhd|]. cbn [length]. lia.
  - apply sublist_length in Hsub. exact Hsub.
Qed.

Lemma featured_candidates_witness :
  let sized := fun (url size : string) =>
                 if bool_decide (size = "c") then url else String.app url size in
  let item := FlickrRecent.mkFlickrItem "a" "l1" "u1" None None [] None None
                FlickrRecent.landscape in
  FlickrRecent.featuredImageCandidates sized (Some item) = ["u1b"; "u1"; "u1z"]
  /\ NoDup (FlickrRecent.featuredImageCandidates sized (Some item)).
Proof.
  intros sized item. split; [reflexivity|].
  destruct (featured_candidates sized item) as [H _]. exact H.
Defined.





Lemma featuredItem_Some (items : list FlickrRecent.FlickrItem) (l : string) :
  FlickrRecent.truthy l = true ->
  Exists (fun item => FlickrRecent.link item = l) items ->
  exists shown, FlickrRecent.featuredItem items (Some l) = Some shown
                /\ FlickrRecent.link shown = l /\ shown ∈ items.
Proof.
  intros Ht Hex. unfold FlickrRecent.featuredItem. rewrite Ht.
  destruct (list_find (fun item => FlickrRecent.link item = l) items)
    as [[i shown]|] eqn:Hf.
  - apply list_find_Some in Hf as (Hi & Hl & _). exists shown.
    split; [done|]. split; [done|]. by apply list_elem_of_lookup_2 in Hi.
  - apply list_find_None in Hf. rewrite list.Forall_forall in Hf.
    apply Exists_exists in Hex as (x & Hx & Hl). by destruct (Hf x Hx).
Qed.

Lemma featuredItem_None (items : list FlickrRecent.FlickrItem) (l : string) :
  ~ Exists (fun item => FlickrRecent.link item = l) items ->
  FlickrRecent.featuredItem items (Some l) = None.
Proof.
  intros Hex. unfold FlickrRecent.featuredItem.
  destruct (FlickrRecent.truthy l); [|done].
  destruct (list_find (fun item => FlickrRecent.link item = l) items)
    as [[i shown]|] eqn:Hf; [|done].
  apply list_find_Some in Hf as (Hi & Hl & _). destruct Hex.
  apply Exists_exists. exists shown. split; [|done].
  by apply list_elem_of_lookup_2 in Hi.
Qed.

(** X30. The featured link and the featured panel.  The effect that drops a
    stale featured link never changes the featured item and does nothing
    when run again; after it, a non-empty featured link always selects an
    item of the feed that carries this link.  Clicking a card of the feed
    that is not featured makes its link the featured one, which the effect
    keeps, and opens nothing; clicking it again opens its link and leaves
    the selection alone. *)
Theorem featured_selection (items : list FlickrRecent.FlickrItem)
    (featuredLink : option string) :
  let synced := FlickrRecent.syncFeaturedLink items featuredLink in
  FlickrRecent.featuredItem items synced = FlickrRecent.featuredItem items featuredLink
  /\ FlickrRecent.syncFeaturedLink items synced = synced
  /\ (forall l, synced = Some l -> FlickrRecent.truthy l = true ->
        exists shown, FlickrRecent.featuredItem items synced = Some shown
                      /\ FlickrRecent.link shown = l /\ shown ∈ items)
  /\ (forall item, item ∈ items -> FlickrRecent.truthy (FlickrRecent.link item) = true ->
        featuredLink <> Some (FlickrRecent.link item) ->
        FlickrRecent.clickCard item featuredLink = (Some (FlickrRecent.link item), None)
        /\ FlickrRecent.syncFeaturedLink items (Some (FlickrRecent.link item))
           = Some (FlickrRecent.link item)
        /\ FlickrRecent.clickCard item (Some (FlickrRecent.link item))
           = (Some (FlickrRecent.link item), Some (FlickrRecent.link item))).
Proof.
  intros synced. split; [|split; [|split]].
  - unfold synced, FlickrRecent.syncFeaturedLink.
    destruct featuredLink as [l|]; [|done].
    destruct (FlickrRecent.truthy l) eqn:Ht; [|done].
    case_bool_decide as Hex; [done|].
    rewrite (featuredItem_None items l Hex). done.
  - unfold synced, FlickrRecent.syncFeaturedLink.
    destruct featuredLink as [l|]; [|done].
    destruct (FlickrRecent.truthy l) eqn:Ht; [|by rewrite Ht].
    case_bool_decide as Hex; [|done].
    by rewrite Ht, bool_decide_eq_true_2.
  - intros l Hs Ht. rewrite Hs. apply featuredItem_Some; [done|].
    revert Hs. unfold synced, FlickrRecent.syncFeaturedLink.
    destruct featuredLink as [l'|]; [|done].
    destruct (FlickrRecent.truthy l') eqn:Ht'.
    + case_bool_decide as Hex; [|done]. by intros [= ->].
    + intros [= ->]. congruence.
  - intros item Hin Ht Hne. split; [|split].
    + unfold FlickrRecent.clickCard. by rewrite bool_decide_eq_false_2.
    + unfold FlickrRecent.syncFeaturedLink. rewrite Ht.
      rewrite bool_decide_eq_true_2; [done|].
      apply Exists_exists. by exists item.
    + unfold FlickrRecent.clickCard. by rewrite bool_decide_eq_true_2.
Qed.

Lemma featured_selection_witness :
  let p := FlickrRecent.mkFlickrItem "a" "l1" "u1" None None [] None None
             FlickrRecent.portrait in
  let w := FlickrRecent.mkFlickrItem "b" "l2" "u2" None None [] None None
             FlickrRecent.square in
  FlickrRecent.syncFeaturedLink [p; w] (Some "l3") = None
  /\ FlickrRecent.featuredItem [p; w] None
     = FlickrRecent.featuredItem [p; w] (Some "l3")
  /\ FlickrRecent.clickCard w (Some "l1") = (Some "l2", None).
Proof.
  intros p w. split; [reflexivity|].
  destruct (featured_selection [p; w] (Some "l3")) as (H1 & _ & _ & H4).
  split; [exact H1|].
  destruct (featured_selection [p; w] (Some "l1")) as (_ & _ & _ & H4').
  destruct (H4' w) as [Hc _]; [|reflexivity|discriminate|exact Hc].
  apply list_elem_of_further, list_elem_of_here.
Defined.
